(** * DCHero: the detection pipeline of dchero.go, embedded and verified

    Text is modelled as Go has it: a [string] is a sequence of bytes
    (here [ascii], one per byte).  The library functions the program
    calls ([strings], [path], [regexp], [net/url]) are modelled at byte
    level; each model says where it is exact. *)

From Stdlib Require Import Ascii String ZArith Lia.
From stdpp Require Import base option list strings gmap sorting.

Local Open Scope string_scope.
Local Open Scope list_scope.

(** ** Bytes *)

Definition byte_of (n : N) : ascii := ascii_of_N n.
Definition code (c : ascii) : N := N_of_ascii c.

Definition in_range (lo hi : N) (c : ascii) : bool :=
  ((lo <=? code c) && (code c <=? hi))%N.

Definition is_byte (n : N) (c : ascii) : bool := (code c =? n)%N.

Definition bytes_eqb (a b : list ascii) : bool := bool_decide (a = b).

(** [starts_with p l]: the byte sequence [p] (given by codes) opens [l]. *)
Fixpoint starts_with (p : list N) (l : list ascii) : bool :=
  match p, l with
  | [], _ => true
  | n :: p', c :: l' => is_byte n c && starts_with p' l'
  | _ :: _, [] => false
  end.

Definition bytes (s : string) : list ascii := list_ascii_of_string s.
Definition text (l : list ascii) : string := string_of_list_ascii l.

(** ** Package [strings] and [path] *)

Module strings.

Definition HasPrefix (s prefix : string) : bool := String.prefix prefix s.

Definition HasSuffix (s suffix : string) : bool :=
  String.prefix (String.rev suffix) (String.rev s).

Definition lower_byte (c : ascii) : ascii :=
  if in_range 65 90 c then byte_of (code c + 32) else c.

(** [ToLower].  Go lowers rune by rune over the UTF-8 decoding.  The
    bytes A-Z go to a-z; the only other runes whose lower case is
    ASCII are U+0130 (bytes C4 B0, to i) and U+212A (bytes E2 84 AA,
    to k).  Every other non-ASCII rune is kept here, where Go yields
    some non-ASCII rune: the program only tests the result against
    ASCII prefixes and suffixes, which cannot tell these apart. *)
Fixpoint ToLower_go (skip : nat) (l : list ascii) : list ascii :=
  match l with
  | [] => []
  | c :: r =>
      match skip with
      | S k => ToLower_go k r
      | O =>
          if starts_with [196; 176]%N l then "i"%char :: ToLower_go 1 r
          else if starts_with [226; 132; 170]%N l then "k"%char :: ToLower_go 2 r
          else lower_byte c :: ToLower_go 0 r
      end
  end.

Definition ToLower (s : string) : string := text (ToLower_go 0 (bytes s)).

(** Width in bytes of the white-space rune that opens [l], 0 if none:
    [unicode.IsSpace] is tab, LF, VT, FF, CR, space, U+0085, U+00A0,
    U+1680, U+2000..U+200A, U+2028, U+2029, U+202F, U+205F, U+3000. *)
Definition space_width (l : list ascii) : nat :=
  match l with
  | [] => 0
  | c :: r =>
      if in_range 9 13 c || is_byte 32 c then 1
      else if is_byte 194 c then
        match r with
        | d :: _ => if is_byte 133 d || is_byte 160 d then 2 else 0
        | [] => 0
        end
      else if starts_with [225; 154; 128]%N l then 3
      else if is_byte 226 c then
        match r with
        | d :: e :: _ =>
            if is_byte 128 d
            then (if in_range 128 138 e || is_byte 168 e || is_byte 169 e
                     || is_byte 175 e then 3 else 0)
            else if is_byte 129 d && is_byte 159 e then 3 else 0
        | _ => 0
        end
      else if starts_with [227; 128; 128]%N l then 3
      else 0
  end.

(** The same for the rune that closes a text, read on the reversed
    bytes ([utf8.DecodeLastRune] finds the same rune: the lead byte
    of each of these encodings is the first rune start going back). *)
Definition space_width_back (rl : list ascii) : nat :=
  match rl with
  | [] => 0
  | c :: _ =>
      if in_range 9 13 c || is_byte 32 c then 1
      else
        let w2 := space_width (reverse (take 2 rl)) in
        if Nat.eqb w2 2 then 2
        else
          let w3 := space_width (reverse (take 3 rl)) in
          if Nat.eqb w3 3 then 3 else 0
  end.

Fixpoint trim_go (width : list ascii → nat) (skip : nat) (l : list ascii)
  : list ascii :=
  match l with
  | [] => []
  | _ :: r =>
      match skip with
      | S k => trim_go width k r
      | O =>
          match width l with
          | O => l
          | S k => trim_go width k r
          end
      end
  end.

Definition TrimLeft_bytes (l : list ascii) : list ascii :=
  trim_go space_width 0 l.
Definition TrimRight_bytes (l : list ascii) : list ascii :=
  reverse (trim_go space_width_back 0 (reverse l)).

Definition TrimSpace (s : string) : string :=
  text (TrimRight_bytes (TrimLeft_bytes (bytes s))).

(** [EqualFold] compares under Unicode simple case folding.  The fold
    classes that contain an ASCII letter are the letter's two cases,
    plus U+212A (E2 84 AA) with k and U+017F (C5 BF) with s.  The
    model folds each side to lower-case ASCII where it can and
    compares; it is exact whenever one side is ASCII, which is how
    the program calls it. *)
Fixpoint fold_go (skip : nat) (l : list ascii) : list ascii :=
  match l with
  | [] => []
  | c :: r =>
      match skip with
      | S k => fold_go k r
      | O =>
          if starts_with [226; 132; 170]%N l then "k"%char :: fold_go 2 r
          else if starts_with [197; 191]%N l then "s"%char :: fold_go 1 r
          else lower_byte c :: fold_go 0 r
      end
  end.

Definition EqualFold (s t : string) : bool :=
  bytes_eqb (fold_go 0 (bytes s)) (fold_go 0 (bytes t)).

(** [Split s "\n"]: the pieces between line feeds, at least one. *)
Fixpoint SplitLines (s : string) : list string :=
  match s with
  | EmptyString => [EmptyString]
  | String c r =>
      if is_byte 10 c then EmptyString :: SplitLines r
      else match SplitLines r with
           | h :: t => String c h :: t
           | [] => [String c EmptyString]
           end
  end.

End strings.

Module path.

Fixpoint strip_slashes (rl : list ascii) : list ascii :=
  match rl with
  | c :: r => if is_byte 47 c then strip_slashes r else rl
  | [] => []
  end.

Fixpoint until_slash (rl : list ascii) : list ascii :=
  match rl with
  | c :: r => if is_byte 47 c then [] else c :: until_slash r
  | [] => []
  end.

(** [Base]: the last element of a slash-separated path; trailing
    slashes are removed first; "." for the empty path, "/" for a path
    of slashes only. *)
Definition Base (p : string) : string :=
  if bool_decide (p = "") then "."
  else
    let rl := strip_slashes (reverse (bytes p)) in
    let last := reverse (until_slash rl) in
    if bool_decide (last = []) then "/" else text last.

End path.


(** ** Package [regexp]

    Go's [regexp] returns the leftmost match and, among the matches
    that start there, the one a backtracking search finds first
    (leftmost-first).  The engine below is that backtracking search,
    over bytes.  The program's patterns use only ASCII classes, so a
    byte-level search finds the same matches as Go's rune-level one
    (a byte of a multi-byte rune is in none of the positive classes and
    in every negated one). *)

Module regexp.

Inductive regex : Type :=
| Empty
| Class (p : ascii → bool)
| Cat (r1 r2 : regex)
| Alt (r1 r2 : regex)
| Rep (greedy : bool) (r : regex)
| Cap (n : nat) (r : regex)
| Bol
| Eol.

(** Where the search stands: whether it is at the beginning of the
    text, and the bytes still ahead. *)
Record cursor : Type := Cursor { bot : bool; ahead : list ascii }.

Definition captures : Type := list (nat * list ascii).

Definition group (n : nat) (caps : captures) : list ascii :=
  match list_find (λ e, bool_decide (e.1 = n)) caps with
  | Some (_, (_, w)) => w
  | None => []
  end.

Section Run.
Context {A : Type}.

(** The loop of a repetition.  [body] runs the repeated pattern once;
    an iteration that consumes nothing is not repeated.  [n] bounds the
    iterations by the bytes ahead.  A greedy loop tries one more
    iteration before it goes on, a lazy one goes on first. *)
Fixpoint rep_loop (greedy : bool)
    (body : cursor → captures → (cursor → captures → option A) → option A)
    (k : cursor → captures → option A)
    (n : nat) (c : cursor) (caps : captures) : option A :=
  let again (_ : unit) :=
    match n with
    | O => None
    | S n' =>
        body c caps (λ c' caps',
          if (length (ahead c') <? length (ahead c))%nat
          then rep_loop greedy body k n' c' caps' else None)
    end in
  if greedy then
    match again () with
    | Some a => Some a
    | None => k c caps
    end
  else
    match k c caps with
    | Some a => Some a
    | None => again ()
    end.

Fixpoint run (r : regex) (c : cursor) (caps : captures)
    (k : cursor → captures → option A) {struct r} : option A :=
  match r with
  | Empty => k c caps
  | Class p =>
      match ahead c with
      | x :: s => if p x then k (Cursor false s) caps else None
      | [] => None
      end
  | Cat r1 r2 => run r1 c caps (λ c' caps', run r2 c' caps' k)
  | Alt r1 r2 =>
      match run r1 c caps k with
      | Some a => Some a
      | None => run r2 c caps k
      end
  | Rep greedy r1 => rep_loop greedy (run r1) k (length (ahead c)) c caps
  | Cap n r1 =>
      run r1 c caps (λ c' caps',
        k c' ((n, take (length (ahead c) - length (ahead c')) (ahead c))
                :: caps'))
  | Bol => if bot c then k c caps else None
  | Eol => match ahead c with [] => k c caps | _ :: _ => None end
  end.
End Run.

(** One match tried at the cursor: its length and its groups. *)
Definition match_here (re : regex) (c : cursor) : option (nat * captures) :=
  run re c [] (λ c' caps, Some ((length (ahead c) - length (ahead c'))%nat, caps)).

(** [MatchString]: is there a match anywhere in the text. *)
Fixpoint search (re : regex) (b : bool) (s : list ascii) : bool :=
  match match_here re (Cursor b s) with
  | Some _ => true
  | None =>
      match s with
      | [] => false
      | _ :: s' => search re false s'
      end
  end.

Definition MatchString (re : regex) (s : string) : bool :=
  search re true (bytes s).

(** One delivered match: start offset, end offset, groups. *)
Record found : Type := Found { m_start : nat; m_end : nat; m_caps : captures }.

(** All successive matches, as Go's [allMatches] walks them: after a
    match the search resumes at its end; an empty match is dropped
    when it sits at the end of the previous match, and the search
    moves on by one byte (one rune in Go; none of the program's
    patterns matches the empty text). [skip] counts the bytes still
    to pass before the next search position, [prev] says that the
    previous match ended at this position. *)
Fixpoint all_matches (re : regex) (b : bool) (pos : nat) (skip : nat)
    (prev : bool) (s : list ascii) {struct s} : list found :=
  let next (b' : bool) (skip' : nat) (prev' : bool) : list found :=
    match s with
    | [] => []
    | _ :: s' => all_matches re b' (S pos) skip' prev' s'
    end in
  match skip with
  | S k => next false k prev
  | O =>
      match match_here re (Cursor b s) with
      | Some (S len, caps) => Found pos (pos + S len) caps :: next false len true
      | Some (O, caps) =>
          (if prev then [] else [Found pos pos caps]) ++ next false 0%nat false
      | None => next false 0%nat false
      end
  end.

Definition FindAll (re : regex) (s : string) : list found :=
  all_matches re true 0 0 false (bytes s).

Definition slice (s : list ascii) (i j : nat) : list ascii :=
  take (j - i) (drop i s).

(** [FindAllString(s, -1)]: the matched texts. *)
Definition FindAllString (re : regex) (s : string) : list string :=
  (λ m, text (slice (bytes s) (m_start m) (m_end m))) <$> FindAll re s.

(** [FindAllStringSubmatch(s, -1)] for a pattern with two groups:
    the whole match, group 1 and group 2; a group that took no part
    in the match is the empty string. *)
Definition FindAllStringSubmatch (re : regex) (s : string)
  : list (string * string * string) :=
  (λ m, (text (slice (bytes s) (m_start m) (m_end m)),
         text (group 1 (m_caps m)), text (group 2 (m_caps m))))
    <$> FindAll re s.

(** [Split(s, -1)]: the pieces of [s] between the matches.  A piece
    is added before each match that does not end at offset 0, and a
    last piece unless the last match starts at the end of [s]. *)
Definition split_step (b : list ascii) (st : list string * nat * nat) (m : found)
  : list string * nat * nat :=
  let '(pieces, beg, _) := st in
  ((if bool_decide (m_end m = 0%nat) then pieces
    else pieces ++ [text (slice b beg (m_start m))]),
   m_end m, m_start m).

Definition Split (re : regex) (s : string) : list string :=
  if bool_decide (s = "") then [""]
  else
    let b := bytes s in
    let '(pieces, beg, last) := foldl (split_step b) ([], 0%nat, 0%nat) (FindAll re s) in
    if bool_decide (last = length b) then pieces
    else pieces ++ [text (drop beg b)].

(** *** Pattern syntax *)

Definition Plus (greedy : bool) (r : regex) : regex := Cat r (Rep greedy r).
Definition Opt (r : regex) : regex := Alt r Empty.
Definition Chr (c : ascii) : regex := Class (λ x, bool_decide (x = c)).
Definition Seq (n : list N) : regex :=
  foldr (λ b r, Cat (Class (is_byte b)) r) Empty n.

(** A literal byte under the flag [(?i)]: a letter matches both its
    cases, and k and s also match the runes that fold to them,
    U+212A (E2 84 AA) and U+017F (C5 BF). *)
Definition fold_chr (c : ascii) : regex :=
  let l := strings.lower_byte c in
  let both := Class (λ x, bool_decide (strings.lower_byte x = l)) in
  if is_byte 107 l then Alt both (Seq [226; 132; 170]%N)
  else if is_byte 115 l then Alt both (Seq [197; 191]%N)
  else both.

Definition Lit (s : string) : regex := foldr (λ c r, Cat (Chr c) r) Empty (bytes s).
Definition LitFold (s : string) : regex :=
  foldr (λ c r, Cat (fold_chr c) r) Empty (bytes s).

Fixpoint AnyOf (rs : list regex) : regex :=
  match rs with
  | [] => Class (λ _, false)
  | [r] => r
  | r :: rs' => Alt r (AnyOf rs')
  end.

(** [\w] is [0-9A-Za-z_], [\s] is tab, LF, FF, CR and space, and [.]
    is any byte but LF. *)
Definition word_byte (c : ascii) : bool :=
  in_range 48 57 c || in_range 65 90 c || in_range 97 122 c || is_byte 95 c.
Definition space_byte (c : ascii) : bool :=
  is_byte 9 c || is_byte 10 c || is_byte 12 c || is_byte 13 c || is_byte 32 c.
Definition any_byte (c : ascii) : bool := negb (is_byte 10 c).

End regexp.

(** ** The program: patterns (dchero.go, lines 27-32) *)

Import regexp.

Definition Cats (rs : list regex) : regex := foldr Cat Empty rs.

Definition one_of (set : string) (c : ascii) : bool :=
  bool_decide (c ∈ bytes set).

Definition manifest_names : list string :=
  [ "package.json"; "package-lock.json"; "yarn.lock"; "pnpm-lock.yaml";
    "requirements.txt"; "pyproject.toml"; "Pipfile"; "Pipfile.lock";
    "constraints.txt"; "setup.py"; "composer.json"; "go.mod" ].

(** [(?i)(?:^|/)(package\.json|...|go\.mod)(?:$|[?#/])] *)
Definition manifestRe : regex :=
  Cats [ Alt Bol (Chr "/");
         Cap 1 (AnyOf (LitFold <$> manifest_names));
         Alt Eol (Class (one_of "?#/")) ].

(** [[<>=!~\[\];\s]] *)
Definition req_delim (c : ascii) : bool :=
  one_of "<>=!~[];" c || space_byte c.
Definition reqSplitRe : regex := Class req_delim.

(** [(?:require\(\s*['"]([^'"]+)['"]\s*\))|(?:import\s+(?:.+?\s+from\s+)?['"]([^'"]+)['"])] *)
Definition quote_byte (c : ascii) : bool := is_byte 39 c || is_byte 34 c.
Definition importReqRe : regex :=
  Alt
    (Cats [ Lit "require("; Rep true (Class space_byte); Class quote_byte;
            Cap 1 (Plus true (Class (λ c, negb (quote_byte c))));
            Class quote_byte; Rep true (Class space_byte); Chr ")" ])
    (Cats [ Lit "import"; Plus true (Class space_byte);
            Opt (Cats [ Plus false (Class any_byte); Plus true (Class space_byte);
                        Lit "from"; Plus true (Class space_byte) ]);
            Class quote_byte;
            Cap 2 (Plus true (Class (λ c, negb (quote_byte c))));
            Class quote_byte ]).

(** [@[\w.-]+\/[\w.-]+] *)
Definition ident_byte (c : ascii) : bool := word_byte c || one_of ".-" c.
Definition scopedRe : regex :=
  Cats [ Chr "@"; Plus true (Class ident_byte); Chr "/";
         Plus true (Class ident_byte) ].

Definition npmURL (pkg : string) : string :=
  "https://registry.npmjs.org/" +:+ pkg +:+ "/".
Definition pypiURL (pkg : string) : string :=
  "https://pypi.org/project/" +:+ pkg +:+ "/".

(** ** The program: pure functions *)

Definition looksLikeCodeFile (p : string) : bool :=
  let l := strings.ToLower p in
  strings.HasSuffix l ".js" || strings.HasSuffix l ".mjs"
  || strings.HasSuffix l ".cjs" || strings.HasSuffix l ".ts".

(** The set of names is a Go map used as a set; its keys are read in
    an unspecified order and then sorted ([sort.Strings] orders byte
    strings lexicographically). *)
Definition sort_Strings (l : list string) : list string :=
  merge_sort String.le l.

Definition scoped_keep (m : string) : bool :=
  negb (strings.HasPrefix m "." || strings.HasPrefix m "/").

Definition import_pkg (sub : string * string * string) : string :=
  let '(_, g1, g2) := sub in
  strings.TrimSpace
    (if negb (bool_decide (g1 = "")) then g1
     else if negb (bool_decide (g2 = "")) then g2 else "").

Definition import_keep (pkg : string) : bool :=
  if bool_decide (pkg = "") then false
  else if strings.HasPrefix pkg "." || strings.HasPrefix pkg "/" then false
  else
    let lpkg := strings.ToLower pkg in
    negb (strings.HasPrefix lpkg "http://" || strings.HasPrefix lpkg "https://"
          || strings.HasPrefix lpkg "git+").

Definition add_scoped (set : gset string) (m : string) : gset string :=
  if scoped_keep m then {[ m ]} ∪ set else set.

Definition add_import (set : gset string) (sub : string * string * string)
  : gset string :=
  let pkg := import_pkg sub in
  if import_keep pkg then {[ pkg ]} ∪ set else set.

Definition extractPackagesFromJS (content : string) : list string :=
  let set := foldl add_scoped ∅ (FindAllString scopedRe content) in
  let set := foldl add_import set (FindAllStringSubmatch importReqRe content) in
  sort_Strings (elements set).

(** ** The worker pool: [runWorkers] (dchero.go, lines 274-326)

    The goroutines of [runWorkers] are modelled as one transition
    system.  A state holds the program point of every goroutine; a
    step is one channel operation, one wait-group operation or one
    call of the worker.  Both channels are unbuffered, so a send and
    its receive are one step.  The worker is a relation over a state
    shared by all invocations (the status cache, for this program):
    one invocation is one step. *)

Module Pool.
Section Pool.
Context {T R E Σ : Type}.

(** [worker t σ val err σ']: called on [t] in shared state [σ], the
    worker can return [(val, err)] and leave the shared state [σ']. *)
Variable worker : T → Σ → R → option E → Σ → Prop.

Record item : Type := Item { it_i : nat; it_t : T }.
Record out : Type := Out { o_i : nat; o_val : R; o_err : option E }.

(** Program points of a worker goroutine (lines 301-309). *)
Inductive wstate : Type :=
| WRecv                 (* [for it := range inCh] *)
| WAcquire (it : item)  (* [sem <- struct{}{}] *)
| WCall (it : item)     (* [worker(it.t)] *)
| WRelease (o : out)    (* [<-sem] *)
| WSend (o : out)       (* [outCh <- out{...}] *)
| WExit.                (* loop left, [wg.Done()] run *)

Record pool : Type := Pool_ {
  feed : list item;        (* inputs the feeder has still to send *)
  in_closed : bool;        (* [close(inCh)] done *)
  ws : list wstate;
  sem : nat;               (* tokens in [sem] *)
  wg : nat;                (* the wait-group counter *)
  out_closed : bool;       (* [close(outCh)] done *)
  results : list R;
  firstErr : option E;
  returned : bool;         (* the collecting loop has ended *)
  shared : Σ
}.

Definition clamp (concurrency : Z) : nat :=
  Z.to_nat (if (concurrency <? 1)%Z then 1%Z else concurrency).

Definition init (inputs : list T) (concurrency : Z) (σ : Σ) : pool :=
  let n := clamp concurrency in
  Pool_ (imap Item inputs) false (replicate n WRecv) 0 n false [] None false σ.

(** Lines 319-324: one received [out] is folded into the result. *)
Definition collect (o : out) (res : list R) (fe : option E)
  : list R * option E :=
  (res ++ [o_val o],
   match o_err o, fe with
   | Some e, None => Some e
   | _, _ => fe
   end).

(** A step, labelled with the [out] value the collector receives. *)
Inductive step : pool → option out → pool → Prop :=
| step_feed p it rest i :
    feed p = it :: rest → ws p !! i = Some WRecv →
    step p None
      (Pool_ rest (in_closed p) (<[i := WAcquire it]> (ws p)) (sem p) (wg p)
             (out_closed p) (results p) (firstErr p) (returned p) (shared p))
| step_close_in p :
    feed p = [] → in_closed p = false →
    step p None
      (Pool_ [] true (ws p) (sem p) (wg p)
             (out_closed p) (results p) (firstErr p) (returned p) (shared p))
| step_exit p i :
    in_closed p = true → ws p !! i = Some WRecv →
    step p None
      (Pool_ (feed p) true (<[i := WExit]> (ws p)) (sem p) (wg p - 1)
             (out_closed p) (results p) (firstErr p) (returned p) (shared p))
| step_acquire p i it :
    ws p !! i = Some (WAcquire it) → sem p < length (ws p) →
    step p None
      (Pool_ (feed p) (in_closed p) (<[i := WCall it]> (ws p)) (S (sem p)) (wg p)
             (out_closed p) (results p) (firstErr p) (returned p) (shared p))
| step_call p i it val err σ' :
    ws p !! i = Some (WCall it) → worker (it_t it) (shared p) val err σ' →
    step p None
      (Pool_ (feed p) (in_closed p)
             (<[i := WRelease (Out (it_i it) val err)]> (ws p)) (sem p) (wg p)
             (out_closed p) (results p) (firstErr p) (returned p) σ')
| step_release p i o :
    ws p !! i = Some (WRelease o) →
    step p None
      (Pool_ (feed p) (in_closed p) (<[i := WSend o]> (ws p)) (sem p - 1) (wg p)
             (out_closed p) (results p) (firstErr p) (returned p) (shared p))
| step_collect p i o :
    ws p !! i = Some (WSend o) → returned p = false →
    step p (Some o)
      (Pool_ (feed p) (in_closed p) (<[i := WRecv]> (ws p)) (sem p) (wg p)
             (out_closed p) (collect o (results p) (firstErr p)).1
             (collect o (results p) (firstErr p)).2 (returned p) (shared p))
| step_close_out p :
    wg p = 0 → out_closed p = false →
    step p None
      (Pool_ (feed p) (in_closed p) (ws p) (sem p) (wg p)
             true (results p) (firstErr p) (returned p) (shared p))
| step_return p :
    out_closed p = true → returned p = false →
    step p None
      (Pool_ (feed p) (in_closed p) (ws p) (sem p) (wg p)
             true (results p) (firstErr p) true (shared p)).

(** Executions, with the sequence of values collected, in order. *)
Inductive steps : pool → list out → pool → Prop :=
| steps_refl p : steps p [] p
| steps_step p l p' tr p'' :
    step p l p' → steps p' tr p'' → steps p (option_list l ++ tr) p''.

(** [runWorkers inputs worker concurrency] returns [(res, fe)]. *)
Definition runWorkers (inputs : list T) (concurrency : Z) (σ : Σ)
    (res : list R) (fe : option E) (σ' : Σ) : Prop :=
  ∃ tr p, steps (init inputs concurrency σ) tr p ∧ returned p = true
          ∧ results p = res ∧ firstErr p = fe ∧ shared p = σ'.

(** The first error in a sequence of collected values. *)
Definition first_error (tr : list out) : option E :=
  head (omap o_err tr).

(** *** What holds in every state of an execution *)

(** The input index a worker goroutine is busy with, if any. *)
Definition w_index (w : wstate) : list nat :=
  match w with
  | WAcquire it | WCall it => [it_i it]
  | WRelease o | WSend o => [o_i o]
  | WRecv | WExit => []
  end.

Definition in_flight (l : list wstate) : list nat := l ≫= w_index.

(** Tokens of [sem] held, goroutines still counted by [wg], and the
    steps a goroutine still has to take. *)
Definition w_holds (w : wstate) : nat :=
  match w with WCall _ | WRelease _ => 1 | _ => 0 end.
Definition w_alive (w : wstate) : nat :=
  match w with WExit => 0 | _ => 1 end.
Definition w_weight (w : wstate) : nat :=
  match w with
  | WExit => 0 | WRecv => 1 | WSend _ => 2 | WRelease _ => 3
  | WCall _ => 4 | WAcquire _ => 5
  end.

Definition total (f : wstate → nat) (l : list wstate) : nat := sum_list_with f l.

(** The number of steps left until the pool has returned. *)
Definition measure (p : pool) : nat :=
  5 * length (feed p) + total w_weight (ws p)
  + (if in_closed p then 0 else 1) + (if out_closed p then 0 else 1)
  + (if returned p then 0 else 1).

Definition valid_item (inputs : list T) (it : item) : Prop :=
  inputs !! it_i it = Some (it_t it).

(** [o] is what the worker returned for the input at its index. *)
Definition valid_out (inputs : list T) (o : out) : Prop :=
  ∃ t σ σ', inputs !! o_i o = Some t ∧ worker t σ (o_val o) (o_err o) σ'.

Definition valid_wstate (inputs : list T) (w : wstate) : Prop :=
  match w with
  | WAcquire it | WCall it => valid_item inputs it
  | WRelease o | WSend o => valid_out inputs o
  | WRecv | WExit => True
  end.

Record inv (inputs : list T) (tr : list out) (p : pool) : Prop := Inv {
  inv_results : results p = o_val <$> tr;
  inv_firstErr : firstErr p = first_error tr;
  inv_indices :
    (it_i <$> feed p) ++ in_flight (ws p) ++ (o_i <$> tr)
      ≡ₚ seq 0 (length inputs);
  inv_feed : Forall (valid_item inputs) (feed p);
  inv_ws : Forall (valid_wstate inputs) (ws p);
  inv_tr : Forall (valid_out inputs) tr;
  inv_in_closed : in_closed p = true → feed p = [];
  inv_exit : WExit ∈ ws p → in_closed p = true;
  inv_wg : wg p = total w_alive (ws p);
  inv_sem : sem p = total w_holds (ws p);
  inv_out_closed : out_closed p = true → wg p = 0;
  inv_returned : returned p = true → out_closed p = true;
  inv_workers : 0 < length (ws p)
}.

End Pool.
End Pool.

(** ** Package [net/url]: [PathUnescape]

    Every [%XX] with two hexadecimal digits becomes the byte [XX]; a
    [%] that is not followed by two hexadecimal digits is an error. *)

Module url.

Definition hex_value (c : ascii) : option N :=
  if in_range 48 57 c then Some (code c - 48)%N
  else if in_range 97 102 c then Some (code c - 87)%N
  else if in_range 65 70 c then Some (code c - 55)%N
  else None.

Fixpoint unescape (l : list ascii) : option (list ascii) :=
  match l with
  | [] => Some []
  | c :: r =>
      if is_byte 37 c then
        match r with
        | a :: b :: rest =>
            match hex_value a, hex_value b with
            | Some x, Some y => cons (byte_of (16 * x + y)) <$> unescape rest
            | _, _ => None
            end
        | _ => None
        end
      else cons c <$> unescape r
  end.

Definition PathUnescape (s : string) : option string :=
  text <$> unescape (bytes s).

(** The fields of a parsed URL that the program reads. *)
Record URL : Type := URL_ {
  Scheme : string;
  Host : string;
  Path : string;
  RawQuery : string
}.

End url.

(** ** The collaborators

    The URL parser, the JSON decoder and the network are outside the
    program.  The network is a function of the URL: it answers a URL in
    one way for the whole run.  Request headers (the random user agent)
    have no part in what the program computes and are left out. *)

Record packageJSON : Type := PackageJSON {
  Dependencies : gmap string string;
  DevDependencies : gmap string string
}.

Class World : Type := {
  error : Type;
  (** [url.Parse] *)
  url_Parse : string → error + url.URL;
  (** [json.Unmarshal] into a [packageJSON] *)
  json_Unmarshal : string → error + packageJSON;
  (** [http.NewRequest]: the error, if the URL cannot make a request *)
  http_NewRequest : string → option error;
  (** [httpClient.Do] for a GET followed by [io.ReadAll]: the status,
      the bytes read and the error of the read *)
  Do_GET : string → error + (Z * string * option error);
  (** [httpClient.Do] for a HEAD: the status *)
  Do_HEAD : string → error + Z
}.

(** ** The program: classifier, fetching, extraction, registry check *)

Section Program.
Context `{W : World}.

Definition language : Type := string.
Definition langJS : language := "js".
Definition langPython : language := "python".

Record vuln : Type := Vuln {
  Package : string;
  Status : Z;
  Language : language
}.

(** Lines 64-96.  The loop state is the set [seen] and the slice [out]. *)
Definition accepts (u : string) : bool :=
  match url_Parse u with
  | inl _ => false
  | inr p =>
      if negb (bool_decide (url.Scheme p = "http"))
         && negb (bool_decide (url.Scheme p = "https")) then false
      else if bool_decide (url.Host p = "") then false
      else
        let pathPlus :=
          if negb (bool_decide (url.RawQuery p = ""))
          then url.Path p +:+ "?" +:+ url.RawQuery p else url.Path p in
        let unesc := default "" (url.PathUnescape pathPlus) in
        MatchString manifestRe unesc || looksLikeCodeFile unesc
  end.

Definition filter_step (st : gset string * list string) (raw : string)
  : gset string * list string :=
  let '(seen, out) := st in
  let u := strings.TrimSpace raw in
  if bool_decide (u = "") then st
  else if bool_decide (u ∈ seen) then st
  else if accepts u then ({[ u ]} ∪ seen, out ++ [u])
  else st.

Definition filterManifestURLs (lines : list string) : list string :=
  (foldl filter_step (∅, []) lines).2.

(** Lines 98-113. *)
Definition httpGET (u : string) : string * Z * option error :=
  match http_NewRequest u with
  | Some e => ("", 0%Z, Some e)
  | None =>
      match Do_GET u with
      | inl e => ("", 0%Z, Some e)
      | inr (status, b, err) => (b, status, err)
      end
  end.

(** Lines 115-141, over the cache [headCache]. *)
Definition httpHEAD (u : string) (cache : gmap string Z)
  : (Z * option error) * gmap string Z :=
  match http_NewRequest u with
  | Some e => ((0%Z, Some e), cache)
  | None =>
      match cache !! u with
      | Some st => ((st, None), cache)
      | None =>
          match Do_HEAD u with
          | inl e => ((0%Z, Some e), cache)
          | inr st => ((st, None), <[u := st]> cache)
          end
      end
  end.

(** Lines 183-197: the requirement list. *)
Definition requirement_step (deps : list string) (ln : string) : list string :=
  let line := strings.TrimSpace ln in
  if bool_decide (line = "") || strings.HasPrefix line "#" then deps
  else
    match Split reqSplitRe line with
    | part :: _ =>
        let pkg := strings.TrimSpace part in
        if negb (bool_decide (pkg = "")) then deps ++ [pkg] else deps
    | [] => deps
    end.

Definition requirement_names (body : string) : list string :=
  foldl requirement_step [] (strings.SplitLines body).

(** The keys of a Go map, in the order the [range] loop meets them
    (unspecified in Go; the map's own order here). *)
Definition keys (m : gmap string string) : list string := (map_to_list m).*1.

(** Lines 155-198. *)
Definition getDependencies (targetURL : string)
  : error + (list string * language) :=
  let '(body, _, err) := httpGET targetURL in
  match err with
  | Some e => inl e
  | None =>
      if strings.EqualFold (path.Base targetURL) "package.json" then
        match json_Unmarshal body with
        | inl e => inl e
        | inr pj => inr (keys (Dependencies pj) ++ keys (DevDependencies pj), langJS)
        end
      else
        let requirement_list := inr (requirement_names body, langPython) in
        if looksLikeCodeFile targetURL then
          let jsDeps := extractPackagesFromJS body in
          if (0 <? length jsDeps)%nat then inr (jsDeps, langJS)
          else requirement_list
        else requirement_list
  end.

(** Lines 245-272. *)
Definition unclaimed_status (st : Z) : bool :=
  negb (st =? 200)%Z && negb (st =? 302)%Z.

Definition checkURL (pkg : string) (lang : language) : string :=
  if bool_decide (lang = langJS) then npmURL pkg else pypiURL pkg.

Definition isUnclaimed (pkg : string) (lang : language) (cache : gmap string Z)
  : (bool * Z) * gmap string Z :=
  let u := checkURL pkg lang in
  match cache !! u with
  | Some st =>
      (if unclaimed_status st then (true, st) else (false, st), cache)
  | None =>
      let '((status, err), cache') := httpHEAD u cache in
      match err with
      | Some _ => ((false, 0%Z), cache')
      | None =>
          (if unclaimed_status status then (true, status) else (false, status),
           cache')
      end
  end.

(** Lines 328-371.  The names are trimmed and deduplicated (lines
    340-352), then checked by an inner pool. *)
Definition dedup_step (st : gset string * list string) (d : string)
  : gset string * list string :=
  let '(seen, inputs) := st in
  let d := strings.TrimSpace d in
  if bool_decide (d = "") then st
  else if bool_decide (d ∈ seen) then st
  else ({[ d ]} ∪ seen, inputs ++ [d]).

Definition dedup_names (deps : list string) : list string :=
  (foldl dedup_step (∅, []) deps).2.

(** The inner worker (lines 354-360); it never returns an error. *)
Definition check_worker (lang : language) (name : string) (cache : gmap string Z)
    (val : option vuln) (err : option error) (cache' : gmap string Z) : Prop :=
  err = None ∧
  cache' = (isUnclaimed name lang cache).2 ∧
  val = (let '(isV, code) := (isUnclaimed name lang cache).1 in
         if isV then Some (Vuln name code lang) else None).

Inductive checkURLDependencies (targetURL : string) (threads : Z)
    (cache : gmap string Z)
  : list vuln → option error → gmap string Z → Prop :=
| check_failed e :
    getDependencies targetURL = inl e →
    checkURLDependencies targetURL threads cache [] (Some e) cache
| check_no_deps lang :
    getDependencies targetURL = inr ([], lang) →
    checkURLDependencies targetURL threads cache [] None cache
| check_deps deps lang outs fe cache' :
    getDependencies targetURL = inr (deps, lang) → deps ≠ [] →
    Pool.runWorkers (check_worker lang) (dedup_names deps) threads cache
      outs fe cache' →
    checkURLDependencies targetURL threads cache (omap id outs) None cache'.

(** Lines 388-450.  The input is the sequence of lines read from the
    standard input; the output is the sequence of printed findings,
    each a vulnerability and the URL it was found at (one line each,
    [[package|status|language] url]). *)
Record outp : Type := Outp {
  out_u : string;
  out_vulns : list vuln;
  out_err : option error
}.

Definition clamp_threads (threads : Z) : Z :=
  let t := if (threads <? 1)%Z then 1%Z else threads in
  if (100 <? t)%Z then 100%Z else t.

Definition read_lines (stdin : list string) : list string :=
  filter (λ line, line ≠ "") (strings.TrimSpace <$> stdin).

(** The outer worker (lines 434-437); it never returns an error. *)
Definition url_worker (threads : Z) (u : string) (cache : gmap string Z)
    (val : outp) (err : option error) (cache' : gmap string Z) : Prop :=
  err = None ∧
  ∃ vv e, checkURLDependencies u threads cache vv e cache' ∧ val = Outp u vv e.

Definition report (results : list outp) : list (vuln * string) :=
  r ← results;
  match out_err r with
  | Some _ => []
  | None => (λ v, (v, out_u r)) <$> out_vulns r
  end.

Inductive main (threads : Z) (stdin : list string) : list (vuln * string) → Prop :=
| main_no_lines :
    read_lines stdin = [] → main threads stdin []
| main_no_urls :
    read_lines stdin ≠ [] → filterManifestURLs (read_lines stdin) = [] →
    main threads stdin []
| main_scan results fe cache' :
    read_lines stdin ≠ [] → filterManifestURLs (read_lines stdin) ≠ [] →
    Pool.runWorkers (url_worker (clamp_threads threads))
      (filterManifestURLs (read_lines stdin)) (clamp_threads threads) ∅
      results fe cache' →
    main threads stdin (report results).

End Program.

(** ** A small world, for the worked examples *)

Definition LF : string := String (byte_of 10) "".
Definition quoted (s : string) : string :=
  String (byte_of 34) "" +:+ s +:+ String (byte_of 34) "".

(** [{"dependencies":{"left-pad":"^1.0.0"},"devDependencies":{"mocha":"^9"}}] *)
Definition example_manifest : string :=
  "{" +:+ quoted "dependencies" +:+ ":{" +:+ quoted "left-pad" +:+ ":"
  +:+ quoted "^1.0.0" +:+ "}," +:+ quoted "devDependencies" +:+ ":{"
  +:+ quoted "mocha" +:+ ":" +:+ quoted "^9" +:+ "}}".

Definition example_requirements : string :=
  "requests==2.31.0" +:+ LF +:+ "# comment" +:+ LF +:+ LF +:+ "flask>=2.0" +:+ LF.

Definition example_source : string :=
  "import foo from 'lodash'; const bar = require('./local');".

(** What [url.Parse] makes of the URLs of the examples. *)
Definition example_urls : list (string * url.URL) :=
  [ ("https://example.com/app/package.json",
     url.URL_ "https" "example.com" "/app/package.json" "");
    ("https://example.com/package.json?v=1",
     url.URL_ "https" "example.com" "/package.json" "v=1");
    ("https://example.com/requirements.txt",
     url.URL_ "https" "example.com" "/requirements.txt" "");
    ("https://cdn.example.com/app.js",
     url.URL_ "https" "cdn.example.com" "/app.js" "");
    ("https://example.com/index.html",
     url.URL_ "https" "example.com" "/index.html" "");
    ("https://down.example.com/setup.py",
     url.URL_ "https" "down.example.com" "/setup.py" "") ].

(** The documents behind them; [down.example.com] does not answer. *)
Definition example_documents : list (string * string) :=
  [ ("https://example.com/app/package.json", example_manifest);
    ("https://example.com/package.json?v=1", example_manifest);
    ("https://example.com/requirements.txt", example_requirements);
    ("https://cdn.example.com/app.js", "const x = 1;");
    ("https://example.com/index.html", "<html></html>") ].

Definition table_lookup {A : Type} (t : list (string * A)) (k : string) : option A :=
  (λ e, e.2.2) <$> list_find (λ e, bool_decide (e.1 = k)) t.

Definition example_world : World := {|
  error := string;
  url_Parse u :=
    match table_lookup example_urls u with
    | Some p => inr p
    | None => inl "parse error"
    end;
  json_Unmarshal body :=
    if bool_decide (body = example_manifest)
    then inr (PackageJSON {[ "left-pad" := "^1.0.0" ]} {[ "mocha" := "^9" ]})
    else inl "invalid character";
  http_NewRequest _ := None;
  Do_GET u :=
    match table_lookup example_documents u with
    | Some body => inr (200%Z, body, None)
    | None => inl "no such host"
    end;
  Do_HEAD u :=
    if bool_decide (u = "https://registry.npmjs.org/mocha/") then inr 200%Z
    else inr 404%Z
|}.

(** Two URLs with an escaped percent sign, and the fields Go's parser
    gives for them: the path is decoded once, [%25] to [%]. *)
Definition escaped_urls : list (string * url.URL) :=
  [ ("https://example.com/a%252Fgo.mod",
     url.URL_ "https" "example.com" "/a%2Fgo.mod" "");
    ("https://example.com/files/100%25/package.json",
     url.URL_ "https" "example.com" "/files/100%/package.json" "") ].

Definition escaped_world : World := {|
  error := string;
  url_Parse u :=
    match table_lookup escaped_urls u with
    | Some p => inr p
    | None => inl "parse error"
    end;
  json_Unmarshal := json_Unmarshal (World := example_world);
  http_NewRequest := http_NewRequest (World := example_world);
  Do_GET := Do_GET (World := example_world);
  Do_HEAD := Do_HEAD (World := example_world)
|}.

(** A worker that fails on every input. *)
Definition failing_worker (t : nat) (σ : unit) (val : nat) (err : option string)
    (σ' : unit) : Prop :=
  val = t ∧ err = Some "failed" ∧ σ' = σ.

(** ** Definitions used to state the properties *)

(** What a pattern matches, stated without a search order:
    [matches r c c'] when [r] can take the cursor from [c] to [c']. *)
Inductive matches : regex → cursor → cursor → Prop :=
| m_empty c : matches Empty c c
| m_class p b x s : p x = true → matches (Class p) (Cursor b (x :: s)) (Cursor false s)
| m_cat r1 r2 c c' c'' :
    matches r1 c c' → matches r2 c' c'' → matches (Cat r1 r2) c c''
| m_alt_l r1 r2 c c' : matches r1 c c' → matches (Alt r1 r2) c c'
| m_alt_r r1 r2 c c' : matches r2 c c' → matches (Alt r1 r2) c c'
| m_rep_stop g r c : matches (Rep g r) c c
| m_rep_more g r c c' c'' :
    matches r c c' → matches (Rep g r) c' c'' → matches (Rep g r) c c''
| m_cap n r c c' : matches r c c' → matches (Cap n r) c c'
| m_bol s : matches Bol (Cursor true s) (Cursor true s)
| m_eol b : matches Eol (Cursor b []) (Cursor b []).

(** The requirement list as the specification words it: the text of a
    line up to the first delimiter is its leading token. *)
Fixpoint leading (p : ascii → bool) (l : list ascii) : list ascii :=
  match l with
  | [] => []
  | x :: l' => if p x then [] else x :: leading p l'
  end.

Definition leading_token (line : string) : string :=
  text (leading req_delim (bytes line)).

Definition requirement_line (line : string) : bool :=
  negb (bool_decide (line = "")) && negb (strings.HasPrefix line "#").

Definition requirement_names_spec (body : string) : list string :=
  filter (λ pkg, pkg ≠ "")
    ((λ line, strings.TrimSpace (leading_token line))
       <$> filter (λ line, requirement_line line = true)
             (strings.TrimSpace <$> strings.SplitLines body)).

Definition ascii7 (c : ascii) : Prop := (code c < 128)%N.

#[global] Instance ascii7_dec (c : ascii) : Decision (ascii7 c) := N.lt_dec _ _.

(** One unit of text that folds to the byte [a]: a byte with the same
    lower case, or one of the two runes that fold to k and s. *)
Definition fold_unit (a : ascii) (w : list ascii) : Prop :=
  (∃ x, w = [x] ∧ strings.lower_byte x = strings.lower_byte a)
  ∨ (strings.lower_byte a = "k"%char ∧ code <$> w = [226; 132; 170]%N)
  ∨ (strings.lower_byte a = "s"%char ∧ code <$> w = [197; 191]%N).

(** The specifiers that import analysis must leave out: relative or
    local paths, and remote or version-control references. *)
Definition not_a_package (x : string) : bool :=
  strings.HasPrefix x "." || strings.HasPrefix x "/"
  || strings.HasPrefix (strings.ToLower x) "http://"
  || strings.HasPrefix (strings.ToLower x) "https://"
  || strings.HasPrefix (strings.ToLower x) "git+".

(** Each string kept where it first occurs. *)
Fixpoint first_seen (l : list string) : list string :=
  match l with
  | [] => []
  | x :: l' => x :: filter (λ y, y ≠ x) (first_seen l')
  end.

(** The manifest-filename test as the specification words it: a known
    basename, compared case-insensitively, that fills a whole path
    segment. *)
Definition segment_start (pre : list ascii) : Prop :=
  pre = [] ∨ ∃ pre', pre = pre' ++ ["/"%char].

Definition segment_end (post : list ascii) : Prop :=
  post = [] ∨ ∃ c post', post = c :: post' ∧ c ∈ bytes "?#/".

Definition names_manifest (s : string) : Prop :=
  ∃ pre mid post name,
    bytes s = pre ++ mid ++ post
    ∧ name ∈ manifest_names
    ∧ strings.EqualFold (text mid) name = true
    ∧ segment_start pre ∧ segment_end post.

Definition code_suffixes : list string := [".js"; ".mjs"; ".cjs"; ".ts"].

Definition has_code_suffix (s : string) : Prop :=
  ∃ suffix, suffix ∈ code_suffixes
            ∧ strings.HasSuffix (strings.ToLower s) suffix = true.

Section Statements.
Context `{W : World}.

(** What the specification asks of an accepted line, once trimmed:
    the percent-decoded path and query pass one of the two tests.
    [url.Path] is the path as Go's parser has decoded it, so it is the
    decoded path; the query is kept raw by the parser and is decoded
    here. *)
Definition acceptable (u : string) : Prop :=
  u ≠ ""
  ∧ ∃ p, url_Parse u = inr p
         ∧ (url.Scheme p = "http" ∨ url.Scheme p = "https")
         ∧ url.Host p ≠ ""
         ∧ ∃ query,
             url.PathUnescape (url.RawQuery p) = Some query
             ∧ let decoded :=
                 if bool_decide (url.RawQuery p = "") then url.Path p
                 else url.Path p +:+ "?" +:+ query in
               names_manifest decoded ∨ has_code_suffix decoded.

(** What the classifier tests instead (lines 85-90): it percent-decodes
    the parser's path, which is decoded already, together with the raw
    query, and the line is dropped when that decoding fails. *)
Definition decoded_again (u : string) : Prop :=
  u ≠ ""
  ∧ ∃ p, url_Parse u = inr p
         ∧ (url.Scheme p = "http" ∨ url.Scheme p = "https")
         ∧ url.Host p ≠ ""
         ∧ ∃ decoded,
             url.PathUnescape
               (if bool_decide (url.RawQuery p = "") then url.Path p
                else url.Path p +:+ "?" +:+ url.RawQuery p) = Some decoded
             ∧ (names_manifest decoded ∨ has_code_suffix decoded).

(** The trimmed lines the classifier lets through, duplicates included. *)
Definition candidates (lines : list string) : list string :=
  filter (λ u, u ≠ "" ∧ accepts u = true) (strings.TrimSpace <$> lines).

(** The status [isUnclaimed] gets to see for a lookup URL: the cached
    one, or else the one a fresh probe returns; none when the probe
    fails. *)
Definition observed_status (u : string) (cache : gmap string Z) : option Z :=
  match cache !! u with
  | Some st => Some st
  | None =>
      match http_NewRequest u, Do_HEAD u with
      | None, inr st => Some st
      | _, _ => None
      end
  end.

End Statements.

(** ** What a run is expected to find *)

(** A worker that is only called in shared states where [I] holds. *)
Definition guarded {T R E Σ : Type} (I : Σ → Prop)
    (worker : T → Σ → R → option E → Σ → Prop)
  : T → Σ → R → option E → Σ → Prop :=
  λ t σ val err σ', I σ ∧ worker t σ val err σ'.

Section Expected.
Context `{W : World}.

(** Every entry of [headCache] is the status of a successful HEAD
    request for its URL. *)
Definition cache_consistent (cache : gmap string Z) : Prop :=
  ∀ u st, cache !! u = Some st → http_NewRequest u = None ∧ Do_HEAD u = inr st.

(** The answer of the registry for a package, without any cache. *)
Definition registry_answer (pkg : string) (lang : language) : bool * Z :=
  let u := checkURL pkg lang in
  match http_NewRequest u, Do_HEAD u with
  | None, inr st => (unclaimed_status st, st)
  | _, _ => (false, 0%Z)
  end.

Definition expected_finding (lang : language) (name : string) : option vuln :=
  let '(isV, code) := registry_answer name lang in
  if isV then Some (Vuln name code lang) else None.

(** The findings for one URL, in the order of its names. *)
Definition expected_vulns (targetURL : string) : list vuln :=
  match getDependencies targetURL with
  | inl _ => []
  | inr (deps, lang) => omap (expected_finding lang) (dedup_names deps)
  end.

(** The findings for the whole input, in the order of its URLs. *)
Definition expected_output (stdin : list string) : list (vuln * string) :=
  u ← filterManifestURLs stdin;
  (λ v, (v, u)) <$> expected_vulns u.

End Expected.

(* ================================================================= *)
(** * Properties *)

(** ** The registry checker *)

Section RegistryChecker.
Context `{W : World}.

Lemma unclaimed_status_iff (st : Z) :
  unclaimed_status st = true ↔ st ≠ 200%Z ∧ st ≠ 302%Z.
Proof.
  unfold unclaimed_status.
  rewrite andb_true_iff, !negb_true_iff, !Z.eqb_neq. tauto.
Qed.

Lemma isUnclaimed_observed (pkg : string) (lang : language) (cache : gmap string Z) :
  (isUnclaimed pkg lang cache).1 =
    match observed_status (checkURL pkg lang) cache with
    | Some st => (unclaimed_status st, st)
    | None => (false, 0%Z)
    end.
Proof.
  unfold isUnclaimed, observed_status, httpHEAD.
  destruct (cache !! checkURL pkg lang) as [st|] eqn:Hc.
  - simpl. by destruct (unclaimed_status st).
  - destruct (http_NewRequest (checkURL pkg lang)); [done|].
    destruct (Do_HEAD (checkURL pkg lang)) as [e|st]; [done|].
    simpl. by destruct (unclaimed_status st).
Qed.

(** C3.  For every package name, language and cache, [isUnclaimed]
    looks up the npm URL for js and the package-index URL otherwise;
    its answer is [(true, status)] exactly when the cached or freshly
    probed status is neither 200 nor 302, [(false, status)] when it is
    200 or 302, and [(false, 0)] when the probe fails.  So a 404 gives
    [(true, 404)], and 200 and 302 give [(false, 200)] and
    [(false, 302)], whatever the language. *)
Theorem isUnclaimed_classifies (pkg : string) (lang : language)
    (cache : gmap string Z) :
  let u := checkURL pkg lang in
  let answer := (isUnclaimed pkg lang cache).1 in
  checkURL pkg langJS = "https://registry.npmjs.org/" +:+ pkg +:+ "/"
  ∧ checkURL pkg langPython = "https://pypi.org/project/" +:+ pkg +:+ "/"
  ∧ (lang ≠ langJS → u = "https://pypi.org/project/" +:+ pkg +:+ "/")
  ∧ (∀ st, answer = (true, st) ↔
           observed_status u cache = Some st ∧ st ≠ 200%Z ∧ st ≠ 302%Z)
  ∧ (∀ st, observed_status u cache = Some st → (st = 200%Z ∨ st = 302%Z) →
           answer = (false, st))
  ∧ (observed_status u cache = None → answer = (false, 0%Z))
  ∧ (observed_status u cache = Some 404%Z → answer = (true, 404%Z))
  ∧ (observed_status u cache = Some 200%Z → answer = (false, 200%Z))
  ∧ (observed_status u cache = Some 302%Z → answer = (false, 302%Z)).
Proof.
  intros u answer. subst answer. rewrite isUnclaimed_observed. fold u.
  split; [done|]. split; [done|].
  split.
  { intros Hl. subst u. unfold checkURL. by rewrite bool_decide_eq_false_2. }
  split.
  { intros st. destruct (observed_status u cache) as [st'|]; split.
    - intros [= Hu ->]. by apply unclaimed_status_iff in Hu.
    - intros ([= ->] & H2 & H3).
      by rewrite (proj2 (unclaimed_status_iff st) (conj H2 H3)).
    - done.
    - by intros [? _]. }
  split.
  { intros st -> [-> | ->]; done. }
  split; [by intros ->|].
  repeat split; by intros ->.
Qed.

End RegistryChecker.

(** ** The regexp engine: the search finds what the pattern matches *)

Lemma matches_suffix (r : regex) (c c' : cursor) :
  matches r c c' → ahead c' `suffix_of` ahead c.
Proof.
  induction 1; simpl; try done.
  - by apply suffix_cons_r.
  - by etrans.
  - by etrans.
Qed.

(** A match that consumes nothing leaves the cursor as it was. *)
Lemma matches_same_length (r : regex) (c c' : cursor) :
  matches r c c' → length (ahead c') = length (ahead c) → c' = c.
Proof.
  intros Hm.
  induction Hm as [c|p b x s Hp|r1 r2 c c' c'' H1 IH1 H2 IH2|r1 r2 c c' H IH
                  |r1 r2 c c' H IH|g r c|g r c c' c'' H1 IH1 H2 IH2
                  |n r c c' H IH|s|b]; simpl; intros Hlen; try done; try (by auto).
  - lia.
  - apply matches_suffix, suffix_length in H1, H2.
    rewrite IH2 by lia. apply IH1. lia.
  - apply matches_suffix, suffix_length in H1, H2.
    rewrite IH2 by lia. apply IH1. lia.
Qed.

Section RunSound.
Context {A : Type}.

(** Soundness: an answer of the search comes from a match. *)
Lemma run_sound (r : regex) :
  ∀ (c : cursor) (caps : captures) (k : cursor → captures → option A) (a : A),
    run r c caps k = Some a →
    ∃ c' caps', matches r c c' ∧ k c' caps' = Some a.
Proof.
  induction r as [|p|r1 IH1 r2 IH2|r1 IH1 r2 IH2|g r1 IH1|n r1 IH1| |];
    intros c caps k a Hrun; simpl in Hrun.
  - exists c, caps. split; [constructor|done].
  - destruct c as [b [|x s]]; simpl in Hrun; [done|].
    destruct (p x) eqn:Hp; [|done].
    exists (Cursor false s), caps. split; [by constructor|done].
  - apply IH1 in Hrun as (c1 & caps1 & Hm1 & Hrun).
    apply IH2 in Hrun as (c2 & caps2 & Hm2 & Hk).
    exists c2, caps2. split; [by econstructor|done].
  - destruct (run r1 c caps k) as [a'|] eqn:H1.
    + injection Hrun as ->. apply IH1 in H1 as (c1 & caps1 & Hm & Hk).
      exists c1, caps1. split; [by apply m_alt_l|done].
    + apply IH2 in Hrun as (c1 & caps1 & Hm & Hk).
      exists c1, caps1. split; [by apply m_alt_r|done].
  - remember (length (ahead c)) as n eqn:Hn. clear Hn. revert c caps Hrun.
    induction n as [|n IHn]; intros c caps Hrun; simpl in Hrun.
    + exists c, caps. split; [constructor|].
      destruct g; [done|]. by destruct (k c caps).
    + assert (Hagain :
        run r1 c caps (λ c' caps',
          if (length (ahead c') <? length (ahead c))%nat
          then rep_loop g (run r1) k n c' caps' else None) = Some a →
        ∃ c' caps', matches (Rep g r1) c c' ∧ k c' caps' = Some a).
      { intros Hr. apply IH1 in Hr as (c1 & caps1 & Hm1 & Hr).
        destruct (_ <? _)%nat; [|done].
        apply IHn in Hr as (c2 & caps2 & Hm2 & Hk).
        exists c2, caps2. split; [by econstructor|done]. }
      destruct g.
      * destruct (run r1 c caps _) as [a'|] eqn:Hr.
        -- injection Hrun as ->. by apply Hagain.
        -- exists c, caps. split; [constructor|done].
      * destruct (k c caps) as [a'|] eqn:Hk.
        -- injection Hrun as ->. exists c, caps. split; [constructor|done].
        -- by apply Hagain.
  - apply IH1 in Hrun as (c1 & caps1 & Hm & Hk).
    eexists c1, _. split; [by constructor|done].
  - destruct c as [[] s]; simpl in Hrun; [|done].
    exists (Cursor true s), caps. split; [constructor|done].
  - destruct c as [b [|x s]]; simpl in Hrun; [|done].
    exists (Cursor b []), caps. split; [constructor|done].
Qed.

End RunSound.

Lemma match_here_sound (re : regex) (c : cursor) (len : nat) (caps : captures) :
  match_here re c = Some (len, caps) →
  ∃ c', matches re c c' ∧ len = length (ahead c) - length (ahead c').
Proof.
  unfold match_here. intros Hrun.
  apply run_sound in Hrun as (c' & caps' & Hm & [= <- <-]). by exists c'.
Qed.

Section RunComplete.
Context {A : Type}.

Lemma rep_loop_complete (g : bool) (r1 : regex) (k : cursor → captures → option A)
    (c c' : cursor) :
  (∀ c1 c2, matches r1 c1 c2 →
     ∀ caps (k' : cursor → captures → option A),
       (∀ caps', is_Some (k' c2 caps')) → is_Some (run r1 c1 caps k')) →
  matches (Rep g r1) c c' →
  (∀ caps', is_Some (k c' caps')) →
  ∀ n caps, (length (ahead c) ≤ n)%nat → is_Some (rep_loop g (run r1) k n c caps).
Proof.
  intros Hbody Hm Hk. remember (Rep g r1) as rr eqn:Hrr.
  induction Hm as [| | | | |g' r c|g' r c c1 c2 H1 _ H2 IH2| | |]; try done.
  - injection Hrr as -> ->. intros n caps _.
    destruct n; simpl.
    + destruct g; [done|]. by destruct (Hk caps) as [a ->].
    + destruct g.
      * by destruct (run r1 c caps _); [|destruct (Hk caps) as [a ->]].
      * by destruct (Hk caps) as [a ->].
  - injection Hrr as -> ->. intros n caps Hn.
    specialize (IH2 eq_refl Hk).
    destruct (decide (length (ahead c1) = length (ahead c))) as [Heq|Hne].
    { apply matches_same_length in H1 as ->; [|done]. by apply IH2. }
    pose proof (suffix_length _ _ (matches_suffix _ _ _ H1)) as Hle.
    destruct n as [|n]; [lia|]. simpl.
    assert (Hagain : is_Some (run r1 c caps (λ c' caps',
        if (length (ahead c') <? length (ahead c))%nat
        then rep_loop g (run r1) k n c' caps' else None))).
    { apply (Hbody _ _ H1). intros caps'.
      rewrite (proj2 (Nat.ltb_lt _ _)) by lia. apply IH2. lia. }
    destruct Hagain as [a Ha]. rewrite Ha.
    destruct g; [done|]. by destruct (k c caps).
Qed.

(** Completeness: where the pattern matches, the search answers. *)
Lemma run_complete (r : regex) :
  ∀ (c c' : cursor), matches r c c' →
    ∀ (caps : captures) (k : cursor → captures → option A),
      (∀ caps', is_Some (k c' caps')) → is_Some (run r c caps k).
Proof.
  induction r as [|p|r1 IH1 r2 IH2|r1 IH1 r2 IH2|g r1 IH1|n r1 IH1| |];
    intros c c' Hm caps k Hk; inversion Hm; subst; simpl.
  - done.
  - match goal with Hp : _ = true |- _ => by rewrite Hp end.
  - eapply IH1; [eassumption|]. intros caps'. eapply IH2; eassumption.
  - destruct (run r1 c caps k) eqn:Hr; [done|].
    assert (is_Some (run r1 c caps k)) as [a Ha] by (eapply IH1; eassumption).
    congruence.
  - destruct (run r1 c caps k) eqn:Hr; [done|]. eapply IH2; eassumption.
  - eapply rep_loop_complete; [apply IH1|eassumption|done|done].
  - eapply rep_loop_complete; [apply IH1|eassumption|done|done].
  - eapply IH1; [eassumption|]. intros caps'. apply Hk.
  - done.
  - done.
Qed.

End RunComplete.

Lemma match_here_complete (re : regex) (c c' : cursor) :
  matches re c c' → is_Some (match_here re c).
Proof. intros Hm. unfold match_here. by eapply run_complete. Qed.

(** [MatchString]: some suffix of the text opens with a match; only the
    whole text is at the beginning of the text. *)
Lemma search_matches (re : regex) (s : list ascii) (b : bool) :
  search re b s = true ↔
  ∃ pre suf c', s = pre ++ suf
                ∧ matches re (Cursor (if pre is [] then b else false) suf) c'.
Proof.
  revert b. induction s as [|x s IH]; intros b; simpl.
  - destruct (match_here re (Cursor b [])) as [[len caps]|] eqn:Hh.
    + split; [intros _|done].
      apply match_here_sound in Hh as (c' & Hm & _). by exists [], [], c'.
    + split; [done|]. intros (pre & suf & c' & Hs & Hm).
      symmetry in Hs. apply app_eq_nil in Hs as [-> ->].
      apply match_here_complete in Hm as [? ?]. congruence.
  - destruct (match_here re (Cursor b (x :: s))) as [[len caps]|] eqn:Hh.
    + split; [intros _|done].
      apply match_here_sound in Hh as (c' & Hm & _). by exists [], (x :: s), c'.
    + rewrite IH. split.
      * intros (pre & suf & c' & -> & Hm). exists (x :: pre), suf, c'.
        split; [done|]. by destruct pre.
      * intros (pre & suf & c' & Hs & Hm). destruct pre as [|y pre].
        -- simpl in Hs. subst suf.
           apply match_here_complete in Hm as [? ?]. congruence.
        -- injection Hs as -> ->. exists pre, suf, c'.
           split; [done|]. by destruct pre.
Qed.

(** ** The regexp engine: the walk over all matches *)

Lemma all_matches_nil (re : regex) (b : bool) (pos : nat) (prev : bool) :
  all_matches re b pos 0 prev [] =
    match match_here re (Cursor b []) with
    | Some (S len, caps) => [Found pos (pos + S len) caps]
    | Some (O, caps) => (if prev then [] else [Found pos pos caps]) ++ []
    | None => []
    end.
Proof. done. Qed.

Lemma all_matches_cons (re : regex) (b : bool) (pos : nat) (prev : bool)
    (x : ascii) (s : list ascii) :
  all_matches re b pos 0 prev (x :: s) =
    match match_here re (Cursor b (x :: s)) with
    | Some (S len, caps) =>
        Found pos (pos + S len) caps :: all_matches re false (S pos) len true s
    | Some (O, caps) =>
        (if prev then [] else [Found pos pos caps])
        ++ all_matches re false (S pos) 0 false s
    | None => all_matches re false (S pos) 0 false s
    end.
Proof. done. Qed.

Lemma all_matches_skip (re : regex) (b : bool) (pos k : nat) (prev : bool)
    (x : ascii) (s : list ascii) :
  all_matches re b pos (S k) prev (x :: s) = all_matches re false (S pos) k prev s.
Proof. done. Qed.

(** ** The regexp engine on a one-byte class *)

Section ClassPattern.
Variable p : ascii → bool.

Lemma match_here_class (b : bool) (s : list ascii) :
  match_here (Class p) (Cursor b s) =
    match s with
    | x :: _ => if p x then Some (1, []) else None
    | [] => None
    end.
Proof.
  unfold match_here. simpl. destruct s as [|x s]; [done|].
  destruct (p x); [|done]. simpl. do 2 f_equal.
  rewrite Nat.sub_succ_l, Nat.sub_diag; done.
Qed.

Lemma leading_prefix (s : list ascii) :
  take (length (leading p s)) s = leading p s.
Proof.
  induction s as [|x s IH]; simpl; [done|].
  destruct (p x); simpl; [done|]. by rewrite IH.
Qed.

Lemma leading_all (s : list ascii) :
  Forall (λ x, p x = false) s → leading p s = s.
Proof.
  induction 1 as [|x s Hx _ IH]; simpl; [done|]. by rewrite Hx, IH.
Qed.

(** The matches of a class: none when no byte is in it, and otherwise
    the first one is the first byte in the class. *)
Lemma all_matches_class (s : list ascii) (b : bool) (pos : nat) (prev : bool) :
  (Forall (λ x, p x = false) s ∧ all_matches (Class p) b pos 0 prev s = [])
  ∨ (∃ m ms, all_matches (Class p) b pos 0 prev s = m :: ms
             ∧ m_start m = pos + length (leading p s)
             ∧ m_end m = S (m_start m)).
Proof.
  revert b pos prev. induction s as [|x s IH]; intros b pos prev.
  - left. split; [constructor|]. by rewrite all_matches_nil, match_here_class.
  - rewrite all_matches_cons, match_here_class. destruct (p x) eqn:Hx.
    + right. eexists _, _. split; [done|]. simpl. rewrite Hx. simpl. split; lia.
    + destruct (IH false (S pos) false) as [[Hall Hnil]|(m & ms & Hm & Hs & He)].
      * left. split; [by constructor|done].
      * right. exists m, ms. split; [done|]. simpl. rewrite Hx. simpl.
        split; [lia|done].
Qed.

Lemma split_step_head (b : list ascii) (ms : list found)
    (st : list string * nat * nat) (x : string) :
  head st.1.1 = Some x → head (foldl (split_step b) st ms).1.1 = Some x.
Proof.
  revert st. induction ms as [|m ms IH]; intros [[pieces beg] last] Hx; [done|].
  simpl. apply IH. simpl in *. case_bool_decide; [done|].
  by destruct pieces.
Qed.

Lemma bytes_nil (s : string) : bytes s = [] → s = "".
Proof. by destruct s. Qed.

(** The first piece of a split at a class is the leading token. *)
Lemma Split_class_head (line : string) :
  line ≠ "" → head (Split (Class p) line) = Some (text (leading p (bytes line))).
Proof.
  intros Hne. unfold Split, FindAll. rewrite bool_decide_eq_false_2 by done.
  assert (Hb : bytes line ≠ []) by (intros Hb; by apply bytes_nil in Hb).
  destruct (all_matches_class (bytes line) true 0 false)
    as [[Hall ->]|(m & ms & -> & Hs & He)].
  - simpl. rewrite bool_decide_eq_false_2.
    + simpl. by rewrite leading_all.
    + destruct (bytes line); [done|]. simpl. lia.
  - simpl. rewrite bool_decide_eq_false_2 by lia.
    pose proof (split_step_head (bytes line) ms
      ([text (slice (bytes line) 0 (m_start m))], m_end m, m_start m)
      (text (slice (bytes line) 0 (m_start m))) eq_refl) as Hh.
    destruct (foldl _ _ ms) as [[pieces beg] last]. simpl in Hh.
    assert (Ht : text (slice (bytes line) 0 (m_start m))
                 = text (leading p (bytes line))).
    { unfold slice. rewrite Hs, drop_0, Nat.sub_0_r. simpl.
      by rewrite leading_prefix. }
    rewrite <- Ht. case_bool_decide; [done|]. by destruct pieces.
Qed.

End ClassPattern.

(** ** The requirement list *)

Lemma requirement_step_spec (deps : list string) (ln : string) :
  requirement_step deps ln =
    deps ++ filter (λ pkg, pkg ≠ "")
              ((λ line, strings.TrimSpace (leading_token line))
                 <$> filter (λ line, requirement_line line = true)
                       [strings.TrimSpace ln]).
Proof.
  unfold requirement_step.
  rewrite filter_cons, filter_nil.
  destruct (requirement_line (strings.TrimSpace ln)) eqn:Hr;
    unfold requirement_line in Hr.
  - apply andb_true_iff in Hr as [Hl Hc].
    apply negb_true_iff in Hl, Hc. apply bool_decide_eq_false in Hl.
    rewrite bool_decide_eq_false_2, Hc by done. simpl.
    pose proof (Split_class_head req_delim _ Hl) as Hh.
    unfold reqSplitRe. destruct (Split _ _) as [|part parts]; [done|].
    simpl in Hh. injection Hh as ->. fold (leading_token (strings.TrimSpace ln)).
    rewrite filter_cons, filter_nil.
    case_bool_decide; simpl.
    + rewrite decide_False by (intros Hn; by apply Hn). by rewrite app_nil_r.
    + by rewrite decide_True.
  - simpl. rewrite app_nil_r.
    apply andb_false_iff in Hr as [Hl | Hc].
    + apply negb_false_iff in Hl. by rewrite Hl.
    + apply negb_false_iff in Hc. rewrite Hc. by rewrite orb_true_r.
Qed.

Lemma requirement_names_fold (lines deps : list string) :
  foldl requirement_step deps lines =
    deps ++ filter (λ pkg, pkg ≠ "")
              ((λ line, strings.TrimSpace (leading_token line))
                 <$> filter (λ line, requirement_line line = true)
                       (strings.TrimSpace <$> lines)).
Proof.
  revert deps. induction lines as [|ln lines IH]; intros deps; simpl.
  { by rewrite app_nil_r. }
  rewrite IH, requirement_step_spec, <- app_assoc. f_equal.
  rewrite <- filter_app, <- fmap_app, <- filter_app. done.
Qed.

Lemma requirement_names_refines (body : string) :
  requirement_names body = requirement_names_spec body.
Proof. unfold requirement_names. by rewrite requirement_names_fold. Qed.

(** ** The dependency extractor *)

Section Extractor.
Context `{W : World}.

(** C9.  Content that reaches the requirement-list branch (the fetch
    succeeded, the URL is not named package.json, and it is no code
    file or import analysis found nothing) is read line by line: each
    line is trimmed, blank lines and lines that begin with [#] are
    dropped, the text before the first delimiter is the package name
    (kept when it is not empty), and the language is python.  The
    example text gives requests and flask. *)
Theorem requirement_list_branch (targetURL body : string) (status : Z) :
  httpGET targetURL = (body, status, None) →
  strings.EqualFold (path.Base targetURL) "package.json" = false →
  looksLikeCodeFile targetURL = false ∨ extractPackagesFromJS body = [] →
  getDependencies targetURL = inr (requirement_names_spec body, langPython)
  ∧ requirement_names_spec example_requirements = ["requests"; "flask"].
Proof.
  intros Hget Hbase Hbranch. split; [|by vm_compute].
  unfold getDependencies. rewrite Hget, Hbase, <- requirement_names_refines.
  destruct Hbranch as [-> | ->]; [done|].
  by destruct (looksLikeCodeFile targetURL).
Qed.

(** C10.  For a URL that passes the code-file suffix test and is not
    named package.json, when import analysis of the fetched content
    finds no candidate, extraction does not answer with an empty js
    result: the same content is read as a requirement list and the
    language is python. *)
Theorem code_file_falls_through (targetURL body : string) (status : Z) :
  httpGET targetURL = (body, status, None) →
  strings.EqualFold (path.Base targetURL) "package.json" = false →
  looksLikeCodeFile targetURL = true →
  extractPackagesFromJS body = [] →
  getDependencies targetURL = inr (requirement_names body, langPython)
  ∧ requirement_names body = requirement_names_spec body.
Proof.
  intros Hget Hbase Hcode Hnone. split; [|apply requirement_names_refines].
  unfold getDependencies. by rewrite Hget, Hbase, Hcode, Hnone.
Qed.

End Extractor.

Lemma requirement_list_branch_witness :
  getDependencies (W := example_world) "https://example.com/requirements.txt"
    = inr (requirement_names_spec example_requirements, langPython)
  ∧ requirement_names_spec example_requirements = ["requests"; "flask"].
Proof.
  apply (requirement_list_branch (W := example_world)
           "https://example.com/requirements.txt" example_requirements 200).
  - vm_compute. reflexivity.
  - vm_compute. reflexivity.
  - left. vm_compute. reflexivity.
Defined.

Lemma code_file_falls_through_witness :
  getDependencies (W := example_world) "https://cdn.example.com/app.js"
    = inr (requirement_names "const x = 1;", langPython)
  ∧ requirement_names "const x = 1;" = requirement_names_spec "const x = 1;".
Proof.
  apply (code_file_falls_through (W := example_world)
           "https://cdn.example.com/app.js" "const x = 1;" 200).
  - vm_compute. reflexivity.
  - vm_compute. reflexivity.
  - vm_compute. reflexivity.
  - vm_compute. reflexivity.
Defined.

(** ** The URL classifier: deduplication and order *)

Lemma first_seen_elem (l : list string) (x : string) : x ∈ first_seen l ↔ x ∈ l.
Proof.
  induction l as [|y l IH]; simpl; [done|].
  rewrite !elem_of_cons, list_elem_of_filter, IH.
  destruct (decide (x = y)); tauto.
Qed.

Lemma first_seen_NoDup (l : list string) : NoDup (first_seen l).
Proof.
  induction l as [|y l IH]; simpl; [constructor|].
  constructor; [|by apply NoDup_filter].
  rewrite list_elem_of_filter. tauto.
Qed.

Lemma filter_not_in_nil (X : list string) : filter (λ y, y ∉ []) X = X.
Proof.
  induction X as [|x X IH]; [done|].
  rewrite filter_cons_True by apply not_elem_of_nil. by rewrite IH.
Qed.

Lemma filter_not_in_snoc (out X : list string) (u : string) :
  filter (λ y, y ∉ out ++ [u]) X = filter (λ y, y ∉ out) (filter (λ y, y ≠ u) X).
Proof.
  rewrite list_filter_filter. apply list_filter_iff. intros y.
  rewrite elem_of_app, list_elem_of_singleton. tauto.
Qed.

Lemma filter_not_in_absorb (out X : list string) (u : string) :
  u ∈ out →
  filter (λ y, y ∉ out) (filter (λ y, y ≠ u) X) = filter (λ y, y ∉ out) X.
Proof.
  intros Hu. rewrite list_filter_filter. apply list_filter_iff. intros y.
  split; [tauto|]. intros Hy. split; [done|]. by intros ->.
Qed.

Section Classifier.
Context `{W : World}.

(** The loop of [filterManifestURLs], from any state in which [seen]
    holds the strings of [out]. *)
Lemma filter_fold (lines : list string) (seen : gset string) (out : list string) :
  (∀ u, u ∈ seen ↔ u ∈ out) →
  (foldl filter_step (seen, out) lines).2
    = out ++ filter (λ u, u ∉ out) (first_seen (candidates lines)).
Proof.
  revert seen out. induction lines as [|raw lines IH]; intros seen out Hseen.
  { simpl. by rewrite app_nil_r. }
  simpl. unfold candidates. rewrite fmap_cons, filter_cons.
  fold (candidates lines).
  set (u := strings.TrimSpace raw).
  destruct (decide (u = "")) as [He|He].
  { rewrite bool_decide_eq_true_2 by done.
    rewrite decide_False by (by intros [? _]). by apply IH. }
  rewrite bool_decide_eq_false_2 by done.
  destruct (decide (u ∈ seen)) as [Hin|Hin].
  { rewrite bool_decide_eq_true_2 by done. rewrite IH by done. f_equal.
    destruct (decide (u ≠ "" ∧ accepts u = true)); [|done].
    simpl. rewrite filter_cons, decide_False by (rewrite <- Hseen; tauto).
    rewrite filter_not_in_absorb; [done|by apply Hseen]. }
  rewrite bool_decide_eq_false_2 by done.
  destruct (accepts u) eqn:Hacc.
  - rewrite decide_True by done. simpl.
    rewrite filter_cons, decide_True by (by rewrite <- Hseen).
    rewrite IH.
    + by rewrite <- app_assoc, filter_not_in_snoc.
    + intros v. rewrite elem_of_union, elem_of_singleton, elem_of_app,
        list_elem_of_singleton, Hseen. tauto.
  - rewrite decide_False by (by intros [_ ?]). by apply IH.
Qed.

Lemma filterManifestURLs_first_seen (lines : list string) :
  filterManifestURLs lines = first_seen (candidates lines).
Proof.
  unfold filterManifestURLs. rewrite filter_fold by set_solver.
  simpl. apply filter_not_in_nil.
Qed.

Lemma filter_fold_seen (lines : list string) (seen : gset string) (out : list string) :
  (∀ u, u ∈ seen ↔ u ∈ out) →
  ∀ u, u ∈ (foldl filter_step (seen, out) lines).1
       ↔ u ∈ (foldl filter_step (seen, out) lines).2.
Proof.
  revert seen out. induction lines as [|raw lines IH]; intros seen out Hseen;
    [done|].
  simpl. repeat case_bool_decide; try by apply IH.
  destruct (accepts _); [|by apply IH].
  apply IH. intros v. rewrite elem_of_union, elem_of_singleton, elem_of_app,
    list_elem_of_singleton, Hseen. tauto.
Qed.

Lemma elem_of_filterManifestURLs (lines : list string) (u : string) :
  u ∈ filterManifestURLs lines
  ↔ u ∈ (strings.TrimSpace <$> lines) ∧ u ≠ "" ∧ accepts u = true.
Proof.
  rewrite filterManifestURLs_first_seen, first_seen_elem.
  unfold candidates. rewrite list_elem_of_filter. tauto.
Qed.

(** C7.  When the same URL string stands on two lines (or more) and
    the classifier accepts it, it survives once, at the place of its
    first occurrence: right after what the lines before that occurrence
    gave, and nowhere later.  The whole output has no repetition and
    keeps the accepted URLs in the order in which they are first seen.
    (A URL that the classifier rejects does not survive at all.) *)
Theorem first_occurrence_survives (l1 l2 l3 : list string) (raw1 raw2 u : string) :
  strings.TrimSpace raw1 = u → strings.TrimSpace raw2 = u →
  u ∉ (strings.TrimSpace <$> l1) →
  u ≠ "" → accepts u = true →
  let lines := l1 ++ raw1 :: l2 ++ raw2 :: l3 in
  (∃ rest, filterManifestURLs lines = filterManifestURLs l1 ++ u :: rest
           ∧ (u ∉ filterManifestURLs l1) ∧ (u ∉ rest))
  ∧ NoDup (filterManifestURLs lines)
  ∧ filterManifestURLs lines = first_seen (candidates lines).
Proof.
  intros H1 H2 Hfresh Hne Hacc lines.
  split; [|split; [rewrite filterManifestURLs_first_seen; apply first_seen_NoDup
                  |apply filterManifestURLs_first_seen]].
  assert (Hout1 : u ∉ filterManifestURLs l1).
  { rewrite elem_of_filterManifestURLs. tauto. }
  subst lines. unfold filterManifestURLs at 1. rewrite foldl_app.
  pose proof (filter_fold_seen l1 ∅ [] ltac:(set_solver)) as Hseen.
  fold (filterManifestURLs l1) in Hseen.
  destruct (foldl filter_step (∅, []) l1) as [seen1 out1] eqn:Hl1.
  assert (Ho : filterManifestURLs l1 = out1)
    by (unfold filterManifestURLs; by rewrite Hl1).
  rewrite Ho in *. simpl in Hseen.
  simpl. rewrite H1, bool_decide_eq_false_2 by done.
  rewrite bool_decide_eq_false_2 by (by rewrite Hseen).
  rewrite Hacc, filter_fold.
  - rewrite <- app_assoc. eexists. split; [done|]. split; [done|].
    rewrite list_elem_of_filter, elem_of_app, list_elem_of_singleton. tauto.
  - intros v. rewrite elem_of_union, elem_of_singleton, elem_of_app,
      list_elem_of_singleton, Hseen. tauto.
Qed.

End Classifier.

(** ** Bytes and case folding *)

Lemma is_byte_spec (n : N) (c : ascii) : is_byte n c = true ↔ code c = n.
Proof. unfold is_byte. apply N.eqb_eq. Qed.

Lemma code_inj (c d : ascii) : code c = code d → c = d.
Proof.
  unfold code. intros Hcd.
  by rewrite <- (ascii_N_embedding c), <- (ascii_N_embedding d), Hcd.
Qed.

Lemma code_byte_of (n : N) : (n < 256)%N → code (byte_of n) = n.
Proof. apply N_ascii_embedding. Qed.

Lemma code_bound (c : ascii) : (code c < 256)%N.
Proof. apply N_ascii_bounded. Qed.

Lemma starts_with_spec (ps : list N) (l : list ascii) :
  starts_with ps l = true ↔ ∃ w r, l = w ++ r ∧ code <$> w = ps.
Proof.
  revert l. induction ps as [|n ps IH]; intros l; simpl.
  - split; [by exists [], l|done].
  - destruct l as [|c l].
    + split; [done|]. intros (w & r & Hl & Hw).
      symmetry in Hl. apply app_eq_nil in Hl as [-> _]. done.
    + rewrite andb_true_iff, is_byte_spec, IH. split.
      * intros [Hc (w & r & -> & Hw)]. exists (c :: w), r.
        split; [done|]. rewrite fmap_cons. congruence.
      * intros (w & r & Hl & Hw). destruct w as [|d w]; [done|].
        injection Hl as -> ->. rewrite fmap_cons in Hw.
        injection Hw as Hc Hw. split; [done|]. by exists w, r.
Qed.

Lemma lower_byte_code (c : ascii) :
  code (strings.lower_byte c)
  = if in_range 65 90 c then (code c + 32)%N else code c.
Proof.
  unfold strings.lower_byte, in_range. destruct (_ && _) eqn:Hr; [|done].
  apply andb_true_iff in Hr as [H1 H2]. apply N.leb_le in H1, H2.
  apply code_byte_of. lia.
Qed.

Lemma lower_byte_ascii7 (c : ascii) : ascii7 (strings.lower_byte c) ↔ ascii7 c.
Proof.
  unfold ascii7. rewrite lower_byte_code. unfold in_range.
  destruct (_ && _) eqn:Hr; [|done].
  apply andb_true_iff in Hr as [H1 H2]. apply N.leb_le in H1, H2. lia.
Qed.

Lemma fold_go_kelvin (w r : list ascii) :
  code <$> w = [226; 132; 170]%N →
  strings.fold_go 0 (w ++ r) = "k"%char :: strings.fold_go 0 r.
Proof.
  intros Hw. destruct w as [|a [|b [|c [|]]]]; try done.
  injection Hw as Ha Hb Hc. simpl.
  apply is_byte_spec in Ha, Hb, Hc. by rewrite Ha, Hb, Hc.
Qed.

Lemma fold_go_long_s (w r : list ascii) :
  code <$> w = [197; 191]%N →
  strings.fold_go 0 (w ++ r) = "s"%char :: strings.fold_go 0 r.
Proof.
  intros Hw. destruct w as [|a [|b [|]]]; try done.
  injection Hw as Ha Hb. simpl.
  apply is_byte_spec in Ha, Hb. rewrite Ha, Hb. simpl.
  destruct (is_byte 226 a) eqn:H226; [|done].
  apply is_byte_spec in Ha, H226. congruence.
Qed.

Lemma fold_go_plain (x : ascii) (r : list ascii) :
  ascii7 x →
  strings.fold_go 0 (x :: r) = strings.lower_byte x :: strings.fold_go 0 r.
Proof.
  unfold ascii7. intros Hx. simpl.
  destruct (is_byte 226 x) eqn:H1.
  { apply is_byte_spec in H1. lia. }
  destruct (is_byte 197 x) eqn:H2.
  { apply is_byte_spec in H2. lia. }
  done.
Qed.

(** The text folds to [a] followed by [rest] exactly when it opens with
    a unit that folds to [a] and goes on with text that folds to
    [rest]. *)
Lemma fold_go_cons (a : ascii) (w rest : list ascii) :
  ascii7 a →
  strings.fold_go 0 w = strings.lower_byte a :: rest
  ↔ ∃ w1 w2, w = w1 ++ w2 ∧ fold_unit a w1 ∧ strings.fold_go 0 w2 = rest.
Proof.
  intros Ha. split.
  - destruct w as [|x r]; [done|].
    destruct (starts_with [226; 132; 170]%N (x :: r)) eqn:Hk.
    { apply starts_with_spec in Hk as (w1 & w2 & Hw & Hw1).
      rewrite Hw, fold_go_kelvin by done. intros [= Hka <-].
      exists w1, w2. split; [done|]. split; [|done]. right. left. done. }
    destruct (starts_with [197; 191]%N (x :: r)) eqn:Hs.
    { apply starts_with_spec in Hs as (w1 & w2 & Hw & Hw1).
      rewrite Hw, fold_go_long_s by done. intros [= Hsa <-].
      exists w1, w2. split; [done|]. split; [|done]. right. right. done. }
    cbn [strings.fold_go]. rewrite Hk, Hs. intros [= Hx <-].
    exists [x], r. split; [done|]. split; [|done]. left. by exists x.
  - intros (w1 & w2 & -> & Hu & <-).
    destruct Hu as [(x & -> & Hx)|[[Hk Hw]|[Hs Hw]]].
    + simpl. rewrite <- Hx. apply fold_go_plain.
      apply lower_byte_ascii7. rewrite Hx. by apply lower_byte_ascii7.
    + rewrite Hk. by apply fold_go_kelvin.
    + rewrite Hs. by apply fold_go_long_s.
Qed.

Lemma fold_go_ascii (l : list ascii) :
  Forall ascii7 l → strings.fold_go 0 l = strings.lower_byte <$> l.
Proof.
  induction 1 as [|x l Hx _ IH]; [done|].
  by rewrite fold_go_plain, IH.
Qed.

Lemma fold_go_nil (w : list ascii) : strings.fold_go 0 w = [] → w = [].
Proof.
  destruct w as [|x r]; [done|]. simpl.
  by repeat (destruct (_ && _)).
Qed.

(** ** What the patterns match *)

Lemma matches_empty (c c' : cursor) : matches Empty c c' ↔ c' = c.
Proof. split; [by inversion 1|intros ->; constructor]. Qed.

Lemma matches_class (p : ascii → bool) (c c' : cursor) :
  matches (Class p) c c'
  ↔ ∃ x s, ahead c = x :: s ∧ p x = true ∧ c' = Cursor false s.
Proof.
  split.
  - inversion 1; subst. by eexists _, _.
  - intros (x & s & Hc & Hp & ->). destruct c as [b l]. simpl in Hc. subst l.
    by constructor.
Qed.

Lemma matches_cat (r1 r2 : regex) (c c'' : cursor) :
  matches (Cat r1 r2) c c'' ↔ ∃ c', matches r1 c c' ∧ matches r2 c' c''.
Proof.
  split.
  - inversion 1; subst. by eexists.
  - intros (c' & H1 & H2). by econstructor.
Qed.

Lemma matches_alt (r1 r2 : regex) (c c' : cursor) :
  matches (Alt r1 r2) c c' ↔ matches r1 c c' ∨ matches r2 c c'.
Proof.
  split.
  - inversion 1; subst; [by left|by right].
  - intros [Hm|Hm]; [by apply m_alt_l|by apply m_alt_r].
Qed.

Lemma matches_cap (n : nat) (r : regex) (c c' : cursor) :
  matches (Cap n r) c c' ↔ matches r c c'.
Proof. split; [by inversion 1|by constructor]. Qed.

Lemma matches_bol (c c' : cursor) : matches Bol c c' ↔ bot c = true ∧ c' = c.
Proof.
  split.
  - by inversion 1.
  - destruct c as [b s]. simpl. intros [-> ->]. constructor.
Qed.

Lemma matches_eol (c c' : cursor) : matches Eol c c' ↔ ahead c = [] ∧ c' = c.
Proof.
  split.
  - by inversion 1.
  - destruct c as [b s]. simpl. intros [-> ->]. constructor.
Qed.

Lemma matches_AnyOf (rs : list regex) (c c' : cursor) :
  matches (AnyOf rs) c c' ↔ ∃ r, r ∈ rs ∧ matches r c c'.
Proof.
  induction rs as [|r rs IH]; simpl.
  - split.
    + intros Hm. apply matches_class in Hm as (? & ? & _ & ? & _). done.
    + intros (r & Hr & _). by apply elem_of_nil in Hr.
  - destruct rs as [|r' rs].
    + split; [intros Hm; exists r; split; [left|done]|].
      intros (r0 & Hr & Hm). by apply list_elem_of_singleton in Hr as ->.
    + rewrite matches_alt, IH. split.
      * intros [Hm|(r0 & Hr & Hm)]; [exists r; split; [left|done]|].
        exists r0. split; [by right|done].
      * intros (r0 & Hr & Hm). apply elem_of_cons in Hr as [->|Hr]; [by left|].
        right. by exists r0.
Qed.

(** A fixed byte sequence. *)
Lemma matches_Seq (ns : list N) (c c' : cursor) :
  ns ≠ [] →
  matches (Seq ns) c c'
  ↔ ∃ w, code <$> w = ns ∧ ahead c = w ++ ahead c' ∧ c' = Cursor false (ahead c').
Proof.
  revert c. induction ns as [|n ns IH]; intros c Hne; [done|].
  unfold Seq. simpl. fold (Seq ns). rewrite matches_cat. split.
  - intros (c1 & H1 & H2).
    apply matches_class in H1 as (x & s & Hc & Hx & ->).
    apply is_byte_spec in Hx. destruct ns as [|n' ns].
    + apply matches_empty in H2 as ->. exists [x]. simpl. by rewrite Hx.
    + apply IH in H2; [|done]. destruct H2 as (w & Hw & Hs & Hc'). simpl in Hs.
      exists (x :: w). rewrite fmap_cons, Hx, Hw. split; [done|].
      split; [|done]. rewrite Hc. simpl. by rewrite Hs.
  - intros (w & Hw & Hs & Hc'). destruct w as [|x w]; [done|].
    rewrite fmap_cons in Hw. injection Hw as Hx Hw.
    exists (Cursor false (w ++ ahead c')). split.
    + apply matches_class. exists x, (w ++ ahead c').
      split; [done|]. split; [by apply is_byte_spec|done].
    + destruct ns as [|n' ns].
      * apply fmap_nil_inv in Hw as ->. simpl. rewrite Hc' at 2.
        apply matches_empty. done.
      * apply IH; [done|]. by exists w.
Qed.

Lemma fold_unit_nonempty (a : ascii) (w : list ascii) : fold_unit a w → w ≠ [].
Proof. intros [(x & Hw & _)|[[_ Hw]|[_ Hw]]]; by destruct w. Qed.

(** A literal byte under [(?i)] matches the units that fold to it. *)
Lemma matches_fold_chr (a : ascii) (c c' : cursor) :
  matches (fold_chr a) c c'
  ↔ ∃ w, fold_unit a w ∧ ahead c = w ++ ahead c' ∧ c' = Cursor false (ahead c').
Proof.
  assert (Hboth : ∀ c c',
    matches (Class (λ x, bool_decide (strings.lower_byte x = strings.lower_byte a))) c c'
    ↔ ∃ w, (∃ x, w = [x] ∧ strings.lower_byte x = strings.lower_byte a)
           ∧ ahead c = w ++ ahead c' ∧ c' = Cursor false (ahead c')).
  { intros d d'. rewrite matches_class. split.
    - intros (x & s & Hd & Hx & ->). apply bool_decide_eq_true in Hx.
      exists [x]. split; [by exists x|done].
    - intros (w & (x & -> & Hx) & Hd & Hd'). exists x, (ahead d').
      split; [done|]. split; [by apply bool_decide_eq_true|done]. }
  unfold fold_chr, fold_unit.
  destruct (is_byte 107 (strings.lower_byte a)) eqn:Hk;
    [|destruct (is_byte 115 (strings.lower_byte a)) eqn:Hs].
  - apply is_byte_spec in Hk.
    assert (Hka : strings.lower_byte a = "k"%char) by (by apply code_inj).
    rewrite matches_alt, Hboth, matches_Seq by done. split.
    + intros [(w & Hu & Hr)|(w & Hw & Hr)]; exists w; (split; [tauto|done]).
    + intros (w & [Hu|[[_ Hw]|[Hsa _]]] & Hr).
      * left. by exists w.
      * right. by exists w.
      * congruence.
  - apply is_byte_spec in Hs.
    assert (Hsa : strings.lower_byte a = "s"%char) by (by apply code_inj).
    rewrite matches_alt, Hboth, matches_Seq by done. split.
    + intros [(w & Hu & Hr)|(w & Hw & Hr)]; exists w; (split; [tauto|done]).
    + intros (w & [Hu|[[Hka _]|[_ Hw]]] & Hr).
      * left. by exists w.
      * congruence.
      * right. by exists w.
  - rewrite Hboth. split.
    + intros (w & Hu & Hr). exists w. split; [tauto|done].
    + intros (w & [Hu|[[Hka _]|[Hsa _]]] & Hr).
      * by exists w.
      * rewrite Hka in Hk. done.
      * rewrite Hsa in Hs. done.
Qed.

(** A literal text under [(?i)] matches the texts that fold to it. *)
Lemma matches_fold_literal (l : list ascii) (c c' : cursor) :
  Forall ascii7 l →
  matches (foldr (λ a r, Cat (fold_chr a) r) Empty l) c c'
  ↔ ∃ w, ahead c = w ++ ahead c'
         ∧ strings.fold_go 0 w = strings.lower_byte <$> l
         ∧ c' = (if l is [] then c else Cursor false (ahead c')).
Proof.
  intros Hl. revert c. induction Hl as [|a l Ha Hl IH]; intros c; simpl.
  - rewrite matches_empty. split.
    + intros ->. by exists [].
    + intros (w & Hw & Hf & Hc). by apply fold_go_nil in Hf as ->.
  - rewrite matches_cat. split.
    + intros (c1 & H1 & H2).
      apply matches_fold_chr in H1 as (w1 & Hu & Hc & Hc1).
      apply IH in H2 as (w2 & Hc1' & Hf & Hc').
      exists (w1 ++ w2). split; [by rewrite <- app_assoc, <- Hc1'|].
      split.
      * apply fold_go_cons; [done|]. by exists w1, w2.
      * destruct l; [|done]. rewrite Hc', Hc1. simpl in Hf.
        apply fold_go_nil in Hf as ->. by rewrite Hc1'.
    + intros (w & Hc & Hf & Hc').
      apply fold_go_cons in Hf; [|done]. destruct Hf as (w1 & w2 & -> & Hu & Hf).
      exists (Cursor false (w2 ++ ahead c')). split.
      * apply matches_fold_chr. exists w1. split; [done|].
        split; [by rewrite Hc, <- app_assoc|done].
      * apply IH. exists w2. split; [done|]. split; [done|].
        destruct l; [|done]. apply fold_go_nil in Hf as ->. simpl.
        by rewrite Hc' at 2.
Qed.

(** ** The manifest pattern *)

Lemma manifest_names_plain :
  Forall (λ name, Forall ascii7 (bytes name) ∧ bytes name ≠ []) manifest_names.
Proof. apply (bool_decide_unpack _). by vm_compute. Qed.

Lemma bytes_text (l : list ascii) : bytes (text l) = l.
Proof. apply list_ascii_of_string_of_list_ascii. Qed.

Lemma text_bytes (s : string) : text (bytes s) = s.
Proof. apply string_of_list_ascii_of_string. Qed.

Lemma EqualFold_plain (mid : list ascii) (name : string) :
  Forall ascii7 (bytes name) →
  strings.EqualFold (text mid) name = true
  ↔ strings.fold_go 0 mid = strings.lower_byte <$> bytes name.
Proof.
  intros Hn. unfold strings.EqualFold, bytes_eqb.
  rewrite bytes_text, (fold_go_ascii _ Hn). apply bool_decide_eq_true.
Qed.

Lemma matches_manifest_name (name : string) (c c' : cursor) :
  name ∈ manifest_names →
  matches (LitFold name) c c'
  ↔ ∃ mid, ahead c = mid ++ ahead c'
           ∧ strings.EqualFold (text mid) name = true
           ∧ c' = Cursor false (ahead c').
Proof.
  intros Hin.
  pose proof (proj1 (Forall_forall _ _) manifest_names_plain name Hin)
    as [Hplain Hne].
  unfold LitFold. rewrite matches_fold_literal by done.
  destruct (bytes name) as [|a l] eqn:Hb; [done|]. rewrite <- Hb in *.
  split; intros (mid & Hc & Hf & Hc'); exists mid;
    (split; [done|]); (split; [|done]); by apply EqualFold_plain.
Qed.

(** The pattern [manifestRe] is the anchored manifest-filename test of
    the specification. *)
Lemma manifestRe_names (s : string) :
  MatchString manifestRe s = true ↔ names_manifest s.
Proof.
  unfold MatchString. rewrite search_matches. unfold manifestRe, Cats. cbn [foldr].
  split.
  - intros (pre & suf & c' & Hs & Hm).
    apply matches_cat in Hm as (c1 & HA & Hm).
    apply matches_cat in Hm as (c2 & HB & Hm).
    apply matches_cat in Hm as (c3 & HE & Hm).
    apply matches_cap, matches_AnyOf in HB as (r & Hr & HB).
    apply list_elem_of_fmap in Hr as (name & -> & Hname).
    apply (matches_manifest_name _ _ _ Hname) in HB as (mid & Hc1 & Hfold & Hc2).
    assert (Hend : segment_end (ahead c2)).
    { apply matches_alt in HE as [HE|HE].
      - apply matches_eol in HE as [He _]. by left.
      - apply matches_class in HE as (x & post & He & Hx & _).
        right. exists x, post. split; [done|].
        by apply bool_decide_eq_true in Hx. }
    apply matches_alt in HA as [HA|HA].
    + apply matches_bol in HA as [Hb ->]. simpl in Hb, Hc1.
      destruct pre; [|done].
      exists [], mid, (ahead c2), name. rewrite Hs, Hc1.
      repeat split; try done. by left.
    + apply matches_class in HA as (x & rest & Hc & Hx & ->).
      simpl in Hc, Hc1. apply bool_decide_eq_true in Hx as ->.
      exists (pre ++ ["/"%char]), mid, (ahead c2), name.
      rewrite Hs, Hc, Hc1, <- app_assoc.
      repeat split; try done. right. by exists pre.
  - intros (pre & mid & post & name & Hs & Hname & Hfold & Hstart & Hend).
    assert (HB : ∀ b, matches (Cat (Cap 1 (AnyOf (LitFold <$> manifest_names)))
                          (Cat (Alt Eol (Class (one_of "?#/"))) Empty))
                   (Cursor b (mid ++ post))
                   (if post is [] then Cursor false []
                    else Cursor false (tail post))).
    { intros b. apply matches_cat. exists (Cursor false post). split.
      - apply matches_cap, matches_AnyOf. exists (LitFold name).
        split; [by apply list_elem_of_fmap_2|].
        apply matches_manifest_name; [done|]. by exists mid.
      - apply matches_cat.
        destruct Hend as [->|(x & post' & -> & Hx)].
        + exists (Cursor false []). split; [|constructor].
          apply matches_alt. left. constructor.
        + exists (Cursor false post'). split; [|constructor].
          apply matches_alt. right. apply matches_class.
          exists x, post'. split; [done|]. split; [|done].
          by apply bool_decide_eq_true. }
    destruct Hstart as [->|(pre' & ->)].
    + exists [], (mid ++ post). eexists. split; [done|].
      apply matches_cat. exists (Cursor true (mid ++ post)).
      split; [|apply HB]. apply matches_alt. left. constructor.
    + exists pre', ("/"%char :: mid ++ post). eexists.
      split; [by rewrite Hs, <- app_assoc|].
      apply matches_cat. exists (Cursor false (mid ++ post)).
      split; [|apply HB]. apply matches_alt. right.
      apply matches_class. exists "/"%char, (mid ++ post).
      split; [done|]. split; [|done]. by apply bool_decide_eq_true.
Qed.

(** ** The URL classifier: which lines are accepted *)

Lemma looksLikeCodeFile_suffix (s : string) :
  looksLikeCodeFile s = true ↔ has_code_suffix s.
Proof.
  unfold looksLikeCodeFile, has_code_suffix, code_suffixes.
  rewrite !orb_true_iff. split.
  - intros [[[Hs|Hs]|Hs]|Hs]; eexists; (split; [|exact Hs]);
      repeat first [apply list_elem_of_here | apply list_elem_of_further].
  - intros (suffix & Hin & Hs).
    repeat (apply elem_of_cons in Hin as [->|Hin]; [tauto|]).
    by apply elem_of_nil in Hin.
Qed.

Section ClassifierAccepts.
Context `{W : World}.

Lemma accepts_decoded_again (u : string) :
  u ≠ "" → accepts u = true ↔ decoded_again u.
Proof.
  intros Hne. unfold accepts, decoded_again.
  destruct (url_Parse u) as [e|p]; [split; [done|by intros (_ & ? & ? & _)]|].
  replace (if negb (bool_decide (url.RawQuery p = ""))
           then url.Path p +:+ "?" +:+ url.RawQuery p else url.Path p)
    with (if bool_decide (url.RawQuery p = "") then url.Path p
          else url.Path p +:+ "?" +:+ url.RawQuery p)
    by (by destruct (bool_decide (url.RawQuery p = ""))).
  split.
  - intros Hacc. split; [done|]. exists p. split; [done|].
    destruct (bool_decide (url.Scheme p = "http")) eqn:Hhttp;
      destruct (bool_decide (url.Scheme p = "https")) eqn:Hhttps;
      simpl in Hacc; try done.
    all: (split; [first [apply bool_decide_eq_true in Hhttp; by left
                        |apply bool_decide_eq_true in Hhttps; by right]|]).
    all: destruct (bool_decide (url.Host p = "")) eqn:Hhost; [done|].
    all: apply bool_decide_eq_false in Hhost; (split; [done|]).
    all: destruct (url.PathUnescape _) as [decoded|] eqn:Hdec;
           [|by vm_compute in Hacc].
    all: exists decoded; (split; [done|]); simpl in Hacc.
    all: apply orb_true_iff in Hacc as [Hm|Hc];
           [left; by apply manifestRe_names
           |right; by apply looksLikeCodeFile_suffix].
  - intros (_ & q & [= <-] & Hscheme & Hhost & decoded & Hdec & Hd).
    assert (Hs : negb (bool_decide (url.Scheme p = "http"))
                 && negb (bool_decide (url.Scheme p = "https")) = false).
    { destruct Hscheme as [Hs|Hs]; rewrite Hs; by vm_compute. }
    rewrite Hs, bool_decide_eq_false_2, Hdec by done. simpl.
    apply orb_true_iff. destruct Hd as [Hm|Hc];
      [left; by apply manifestRe_names|right; by apply looksLikeCodeFile_suffix].
Qed.

(** What the classifier does: a line is accepted (its trimmed text is
    in the output) exactly when the trimmed text is not empty, parses
    as a URL with scheme http or https and a host, and the path and
    query, decoded again, name a known manifest in a whole path
    segment or end in one of the four code-file suffixes.  Nothing
    else is in the output. *)
Lemma classifier_accepts_decoded_again (lines : list string) (raw : string) :
  raw ∈ lines →
  (strings.TrimSpace raw ∈ filterManifestURLs lines
   ↔ decoded_again (strings.TrimSpace raw))
  ∧ (∀ u, u ∈ filterManifestURLs lines →
          decoded_again u ∧ ∃ raw', raw' ∈ lines ∧ u = strings.TrimSpace raw').
Proof.
  intros Hraw. split.
  - rewrite elem_of_filterManifestURLs. split.
    + intros (_ & Hne & Hacc). by apply accepts_decoded_again.
    + intros Hacc. pose proof Hacc as [Hne _].
      split; [by apply list_elem_of_fmap_2|]. split; [done|].
      by apply accepts_decoded_again.
  - intros u (Hin & Hne & Hacc)%elem_of_filterManifestURLs.
    split; [by apply accepts_decoded_again|].
    apply list_elem_of_fmap in Hin as (raw' & -> & Hin). by exists raw'.
Qed.

Lemma text_app (a b : list ascii) : text (a ++ b) = text a +:+ text b.
Proof. unfold text. induction a as [|x a IH]; simpl; [done|]. by rewrite IH. Qed.

Lemma bytes_app (s1 s2 : string) : bytes (s1 +:+ s2) = bytes s1 ++ bytes s2.
Proof. induction s1 as [|c s1 IH]; simpl; [done|]. by rewrite <- IH. Qed.

(** Decoding leaves a text without a percent sign as it is. *)
Lemma unescape_plain_app (a b : list ascii) :
  Forall (λ c, is_byte 37 c = false) a →
  url.unescape (a ++ b) = (a ++.) <$> url.unescape b.
Proof.
  induction 1 as [|c a Hc _ IH]; simpl.
  - by destruct (url.unescape b).
  - rewrite Hc, IH. by destruct (url.unescape b).
Qed.

(** Where the claim and the classifier agree: on a URL whose decoded
    path holds no percent sign the second decoding changes nothing. *)
Lemma accepts_acceptable_plain (u : string) (p : url.URL) :
  u ≠ "" → url_Parse u = inr p →
  Forall (λ c, is_byte 37 c = false) (bytes (url.Path p)) →
  accepts u = true ↔ acceptable u.
Proof.
  intros Hne Hp Hplain. rewrite accepts_decoded_again by done.
  unfold decoded_again, acceptable.
  assert (Hdec : ∀ decoded,
    url.PathUnescape
      (if bool_decide (url.RawQuery p = "") then url.Path p
       else url.Path p +:+ "?" +:+ url.RawQuery p) = Some decoded
    ↔ ∃ query, url.PathUnescape (url.RawQuery p) = Some query
               ∧ decoded = if bool_decide (url.RawQuery p = "") then url.Path p
                           else url.Path p +:+ "?" +:+ query).
  { intros decoded. unfold url.PathUnescape. case_bool_decide as Hq.
    - rewrite Hq. rewrite <- (app_nil_r (bytes (url.Path p))) at 1.
      rewrite unescape_plain_app by done. simpl.
      rewrite app_nil_r, text_bytes. split.
      + intros [= <-]. by exists "".
      + by intros (_ & _ & ->).
    - rewrite !bytes_app, unescape_plain_app by done.
      change (bytes "?" ++ bytes (url.RawQuery p))
        with ("?"%char :: bytes (url.RawQuery p)).
      cbn [url.unescape]. change (is_byte 37 "?") with false. cbn iota.
      destruct (url.unescape (bytes (url.RawQuery p))) as [q|]; simpl.
      + rewrite text_app, text_bytes. change (text ("?"%char :: q))
          with ("?" +:+ text q). split.
        * intros [= <-]. by exists (text q).
        * by intros (? & [= <-] & ->).
      + split; [done|]. by intros (? & ? & _). }
  split.
  - intros (_ & p' & Hp' & Hs & Hh & decoded & Hd & Ht).
    rewrite Hp in Hp'. injection Hp' as <-.
    apply Hdec in Hd as (query & Hq & ->).
    split; [done|]. exists p. do 3 (split; [done|]). by exists query.
  - intros (_ & p' & Hp' & Hs & Hh & query & Hq & Ht).
    rewrite Hp in Hp'. injection Hp' as <-.
    split; [done|]. exists p. do 3 (split; [done|]).
    eexists. split; [|exact Ht]. apply Hdec. by exists query.
Qed.

End ClassifierAccepts.

(** C6.  The classifier does not test the percent-decoded path and
    query: it decodes again the path that the parser has decoded.
    For [https://example.com/a%252Fgo.mod] the parser gives the path
    [/a%2Fgo.mod], which names no manifest and has no code suffix;
    the classifier decodes it to [/a/go.mod] and accepts the line.
    For [https://example.com/files/100%25/package.json] the parser
    gives the path [/files/100%/package.json], which names
    package.json in a whole segment; the second decoding fails on
    [%/p] and the classifier drops the line. *)
Theorem classifier_decodes_path_twice :
  let kept := "https://example.com/a%252Fgo.mod" in
  let dropped := "https://example.com/files/100%25/package.json" in
  (url_Parse (World := escaped_world) kept
   = inr (url.URL_ "https" "example.com" "/a%2Fgo.mod" "")
   ∧ url.PathUnescape "/a%2Fgo.mod" = Some "/a/go.mod"
   ∧ filterManifestURLs (W := escaped_world) [kept] = [kept]
   ∧ ¬ acceptable (W := escaped_world) kept)
  ∧ (url_Parse (World := escaped_world) dropped
     = inr (url.URL_ "https" "example.com" "/files/100%/package.json" "")
     ∧ url.PathUnescape "/files/100%/package.json" = None
     ∧ filterManifestURLs (W := escaped_world) [dropped] = []
     ∧ acceptable (W := escaped_world) dropped).
Proof.
  cbv zeta. split.
  - do 3 (split; [by vm_compute|]).
    intros (_ & p & Hp & _ & _ & query & _ & Ht).
    vm_compute in Hp. injection Hp as <-. cbv zeta in Ht.
    destruct Ht as [Hm|Hc].
    + apply manifestRe_names in Hm. by vm_compute in Hm.
    + apply looksLikeCodeFile_suffix in Hc. by vm_compute in Hc.
  - do 3 (split; [by vm_compute|]).
    split; [done|]. eexists. split; [by vm_compute|].
    split; [by right|]. split; [done|]. exists "".
    split; [by vm_compute|]. cbv zeta. left.
    apply manifestRe_names. by vm_compute.
Qed.

(** ** Import-statement analysis *)

(** Every match that the walk delivers is a match found at its start
    offset. *)
Lemma all_matches_found (re : regex) (Q : list ascii → nat → Prop) :
  (∀ b s len caps, match_here re (Cursor b s) = Some (len, caps) → Q s len) →
  ∀ s b pos skip prev m,
    m ∈ all_matches re b pos skip prev s →
    (pos ≤ m_start m)%nat ∧ (m_start m ≤ m_end m)%nat
    ∧ Q (drop (m_start m - pos) s) (m_end m - m_start m).
Proof.
  intros HQ. induction s as [|x s IH]; intros b pos skip prev m Hm.
  - destruct skip as [|k]; [|by apply elem_of_nil in Hm].
    rewrite all_matches_nil in Hm.
    destruct (match_here re (Cursor b [])) as [[[|len] caps]|] eqn:Hh.
    + destruct prev; [by apply elem_of_nil in Hm|].
      apply list_elem_of_singleton in Hm as ->. simpl.
      rewrite Nat.sub_diag. split; [lia|]. split; [lia|]. by eapply HQ.
    + apply list_elem_of_singleton in Hm as ->. simpl.
      replace (pos + S len - pos) with (S len) by lia. rewrite Nat.sub_diag.
      split; [lia|]. split; [lia|]. by eapply HQ.
    + by apply elem_of_nil in Hm.
  - assert (Hlater : ∀ b' k' prev',
      m ∈ all_matches re b' (S pos) k' prev' s →
      (pos ≤ m_start m)%nat ∧ (m_start m ≤ m_end m)%nat
      ∧ Q (drop (m_start m - pos) (x :: s)) (m_end m - m_start m)).
    { intros b' k' prev' Hin. apply IH in Hin as (H1 & H2 & H3).
      split; [lia|]. split; [lia|].
      replace (m_start m - pos) with (S (m_start m - S pos)) by lia. done. }
    destruct skip as [|k]; [|rewrite all_matches_skip in Hm; by eapply Hlater].
    rewrite all_matches_cons in Hm.
    destruct (match_here re (Cursor b (x :: s))) as [[[|len] caps]|] eqn:Hh.
    + apply elem_of_app in Hm as [Hm|Hm]; [|by eapply Hlater].
      destruct prev; [by apply elem_of_nil in Hm|].
      apply list_elem_of_singleton in Hm as ->. simpl.
      rewrite Nat.sub_diag. split; [lia|]. split; [lia|]. by eapply HQ.
    + apply elem_of_cons in Hm as [->|Hm]; [|by eapply Hlater]. simpl.
      replace (pos + S len - pos) with (S len) by lia. rewrite Nat.sub_diag.
      split; [lia|]. split; [lia|]. by eapply HQ.
    + by eapply Hlater.
Qed.

(** A match of [scopedRe] opens with the byte [@]. *)
Lemma scopedRe_match_here (b : bool) (s : list ascii) (len : nat) (caps : captures) :
  match_here scopedRe (Cursor b s) = Some (len, caps) →
  ∃ r, s = "@"%char :: r ∧ (1 ≤ len)%nat.
Proof.
  intros Hh. apply match_here_sound in Hh as (c' & Hm & ->).
  unfold scopedRe, Cats in Hm. cbn [foldr] in Hm.
  apply matches_cat in Hm as (c1 & H1 & H2).
  apply matches_class in H1 as (x & r & Hs & Hx & ->).
  apply bool_decide_eq_true in Hx as ->. simpl in Hs. subst s.
  exists r. split; [done|].
  apply matches_suffix, suffix_length in H2. simpl in *. lia.
Qed.

Lemma scoped_matches_at (content m : string) :
  m ∈ FindAllString scopedRe content → strings.HasPrefix m "@" = true.
Proof.
  unfold FindAllString, FindAll. intros Hm.
  apply list_elem_of_fmap in Hm as (f & -> & Hf).
  apply (all_matches_found scopedRe
           (λ s len, ∃ r, s = "@"%char :: r ∧ (1 ≤ len)%nat)) in Hf
    as (_ & _ & r & Hr & Hlen).
  2: { intros b s len caps. apply scopedRe_match_here. }
  unfold slice. rewrite Nat.sub_0_r in Hr. rewrite Hr.
  destruct (m_end f - m_start f) as [|n]; [lia|].
  unfold strings.HasPrefix. simpl. by destruct (text (take n r)).
Qed.

Lemma at_is_a_package (m : string) :
  strings.HasPrefix m "@" = true → not_a_package m = false.
Proof.
  intros Hp. destruct m as [|c m]; [done|].
  unfold strings.HasPrefix in Hp. cbn [String.prefix] in Hp.
  destruct (ascii_dec "@" c) as [<-|]; [|done]. by vm_compute.
Qed.

Lemma import_keep_is_a_package (pkg : string) :
  import_keep pkg = true → not_a_package pkg = false.
Proof.
  unfold import_keep, not_a_package. case_bool_decide; [done|].
  destruct (strings.HasPrefix pkg "." || strings.HasPrefix pkg "/") eqn:Hrel;
    [done|].
  intros Hk. apply negb_true_iff in Hk. done.
Qed.

Lemma add_scoped_keeps (P : string → Prop) (ms : list string) (set : gset string) :
  (∀ x, x ∈ set → P x) → (∀ m, m ∈ ms → P m) →
  ∀ x, x ∈ foldl add_scoped set ms → P x.
Proof.
  revert set. induction ms as [|m ms IH]; intros set Hset Hms x; simpl; [by auto|].
  apply IH; [|intros m' Hm'; apply Hms; by right].
  intros y. unfold add_scoped. destruct (scoped_keep m); [|by auto].
  rewrite elem_of_union, elem_of_singleton. intros [->|Hy]; [|by auto].
  apply Hms. by left.
Qed.

Lemma add_import_keeps (P : string → Prop)
    (subs : list (string * string * string)) (set : gset string) :
  (∀ x, x ∈ set → P x) → (∀ pkg, import_keep pkg = true → P pkg) →
  ∀ x, x ∈ foldl add_import set subs → P x.
Proof.
  revert set. induction subs as [|sub subs IH]; intros set Hset Hk x; simpl;
    [by auto|].
  apply IH; [|done].
  intros y. unfold add_import. destruct (import_keep (import_pkg sub)) eqn:Hi;
    [|by auto].
  rewrite elem_of_union, elem_of_singleton. intros [->|Hy]; by auto.
Qed.

Lemma sort_Strings_elem (set : gset string) (x : string) :
  x ∈ sort_Strings (elements set) ↔ x ∈ set.
Proof.
  unfold sort_Strings. by rewrite merge_sort_Permutation, elem_of_elements.
Qed.

(** C8.  Import analysis never returns a specifier that starts with
    [.] or [/] or, in lower case, with [http://], [https://] or
    [git+]: a captured specifier of that kind is left out.  What it
    returns is sorted in lexicographic order and has no duplicates.
    The example text gives exactly lodash. *)
Theorem import_analysis_result (content : string) :
  (∀ x, not_a_package x = true → x ∉ extractPackagesFromJS content)
  ∧ Sorted String.le (extractPackagesFromJS content)
  ∧ NoDup (extractPackagesFromJS content)
  ∧ extractPackagesFromJS example_source = ["lodash"].
Proof.
  split; [|split; [|split]].
  - intros x Hx Hin. unfold extractPackagesFromJS in Hin.
    apply sort_Strings_elem in Hin.
    apply (add_import_keeps (λ x, not_a_package x = false)) in Hin;
      [congruence| |apply import_keep_is_a_package].
    apply add_scoped_keeps; [by intros y Hy%elem_of_empty|].
    intros m Hm. by eapply at_is_a_package, scoped_matches_at.
  - apply Sorted_merge_sort. apply _.
  - unfold extractPackagesFromJS, sort_Strings.
    rewrite merge_sort_Permutation. apply NoDup_elements.
  - by vm_compute.
Qed.

(** C1.  The guard of line 204 tests the matched token itself, and a
    token of [scopedRe] always opens with [@]: it is never dropped.  So
    a scoped token that follows [.] or [/] in the text is returned all
    the same, here the one inside a relative path. *)
Theorem scoped_token_after_slash_is_kept :
  extractPackagesFromJS "const a = require('./@foo/bar');" = ["@foo/bar"]
  ∧ ∀ content m, m ∈ FindAllString scopedRe content → scoped_keep m = true.
Proof.
  split; [by vm_compute|].
  intros content m Hm%scoped_matches_at. unfold scoped_keep.
  destruct m as [|c m]; [done|].
  unfold strings.HasPrefix in *. cbn [String.prefix] in *.
  destruct (ascii_dec "@" c) as [<-|]; [|done].
  by destruct (ascii_dec "." "@"), (ascii_dec "/" "@").
Qed.

(** ** The manifest branch of the extractor *)

Section ManifestBranch.
Context `{W : World}.

(** The branch of lines 162-174: a URL whose last element is
    package.json, in any letter case. *)
Lemma package_json_branch (targetURL body : string) (status : Z) :
  httpGET targetURL = (body, status, None) →
  strings.EqualFold (path.Base targetURL) "package.json" = true →
  getDependencies targetURL =
    match json_Unmarshal body with
    | inl e => inl e
    | inr pj => inr (keys (Dependencies pj) ++ keys (DevDependencies pj), langJS)
    end.
Proof. intros Hget Hbase. unfold getDependencies. by rewrite Hget, Hbase. Qed.

Lemma keys_elem (m : gmap string string) (k : string) : k ∈ keys m ↔ is_Some (m !! k).
Proof.
  unfold keys. rewrite list_elem_of_fmap. split.
  - intros ([k' v] & -> & Hkv). apply elem_of_map_to_list in Hkv. by exists v.
  - intros [v Hv]. exists (k, v). split; [done|]. by apply elem_of_map_to_list.
Qed.

End ManifestBranch.

(** C2.  [getDependencies] takes the last element of the whole URL
    text, query string included.  A package.json URL that carries a
    query string, which the classifier accepts as a manifest, is not
    read as a manifest: its content goes through the requirement-list
    branch, and the whole document comes out as one python package
    name.  The same document at the URL without a query string gives
    the keys of the two maps, with language js.  Whatever the network
    returns for the URL with the query string is read as a
    requirement list. *)
Theorem package_json_with_query_is_not_a_manifest :
  path.Base "https://example.com/package.json?v=1" = "package.json?v=1"
  ∧ filterManifestURLs (W := example_world)
      ["https://example.com/package.json?v=1"]
    = ["https://example.com/package.json?v=1"]
  ∧ getDependencies (W := example_world) "https://example.com/package.json?v=1"
    = inr ([example_manifest], langPython)
  ∧ getDependencies (W := example_world) "https://example.com/app/package.json"
    = inr (["left-pad"; "mocha"], langJS)
  ∧ ∀ (W : World) (body : string) (status : Z),
      httpGET "https://example.com/package.json?v=1" = (body, status, None) →
      getDependencies "https://example.com/package.json?v=1"
      = inr (requirement_names body, langPython).
Proof.
  split; [by vm_compute|]. split; [by vm_compute|].
  split; [by vm_compute|]. split; [by vm_compute|].
  intros W body status Hget. unfold getDependencies. rewrite Hget.
  assert (Hbase : strings.EqualFold
                    (path.Base "https://example.com/package.json?v=1")
                    "package.json" = false) by (by vm_compute).
  assert (Hcode : looksLikeCodeFile "https://example.com/package.json?v=1"
                  = false) by (by vm_compute).
  by rewrite Hbase, Hcode.
Qed.

(** ** Worked examples of the classifier *)

Lemma first_occurrence_survives_witness :
  let u := "https://example.com/app/package.json" in
  let lines := [ "https://cdn.example.com/app.js";
                 "  https://example.com/app/package.json";
                 "https://example.com/index.html";
                 "https://example.com/app/package.json ";
                 "https://example.com/app/package.json" ] in
  (∃ rest, filterManifestURLs (W := example_world) lines
           = filterManifestURLs (W := example_world)
               ["https://cdn.example.com/app.js"] ++ u :: rest
           ∧ (u ∉ filterManifestURLs (W := example_world)
                    ["https://cdn.example.com/app.js"])
           ∧ (u ∉ rest))
  ∧ NoDup (filterManifestURLs (W := example_world) lines)
  ∧ filterManifestURLs (W := example_world) lines
    = first_seen (candidates (W := example_world) lines).
Proof.
  apply (first_occurrence_survives (W := example_world)
           ["https://cdn.example.com/app.js"] ["https://example.com/index.html"]
           ["https://example.com/app/package.json"]
           "  https://example.com/app/package.json"
           "https://example.com/app/package.json "
           "https://example.com/app/package.json").
  - vm_compute. reflexivity.
  - vm_compute. reflexivity.
  - apply (bool_decide_unpack _). vm_compute. exact I.
  - discriminate.
  - vm_compute. reflexivity.
Defined.

(** ** The worker pool *)

Section PoolFacts.
Import Pool.
Context {T R E Σ : Type}.
Variable worker : T → Σ → R → option E → Σ → Prop.
Implicit Types (p : pool (T := T) (R := R) (E := E) (Σ := Σ)).
Implicit Types (l : list (wstate (T := T) (R := R) (E := E))).
Implicit Types (w : wstate (T := T) (R := R) (E := E)).
Implicit Types (tr : list (out (R := R) (E := E))).

Lemma total_insert (f : wstate → nat) l (i : nat) w w' :
  l !! i = Some w → total f (<[i := w']> l) + f w = total f l + f w'.
Proof.
  unfold total. revert i. induction l as [|x l IH]; intros i Hi; [done|].
  destruct i as [|i]; simpl in *.
  - injection Hi as ->. clear IH. lia.
  - specialize (IH i Hi). lia.
Qed.

Lemma total_replicate (f : wstate → nat) (n : nat) w :
  total f (replicate n w) = n * f w.
Proof. unfold total. induction n as [|n IH]; simpl; [done|]. by rewrite IH. Qed.

Lemma total_zero_Forall (f : wstate → nat) l :
  total f l = 0 → Forall (λ w, f w = 0) l.
Proof.
  unfold total. induction l as [|x l IH]; simpl; [constructor|].
  intros Hs. constructor; [lia|]. apply IH. lia.
Qed.

Lemma total_bound (f : wstate → nat) l :
  (∀ w, f w <= 1) → total f l <= length l.
Proof.
  intros Hf. unfold total. induction l as [|x l IH]; simpl; [done|].
  specialize (Hf x). lia.
Qed.

Lemma total_bound_strict (f : wstate → nat) l (i : nat) w :
  (∀ w, f w <= 1) → l !! i = Some w → f w = 0 → total f l < length l.
Proof.
  intros Hf. unfold total. revert i.
  induction l as [|x l IH]; intros i Hi Hw; [done|].
  destruct i as [|i]; simpl in *.
  - injection Hi as ->. pose proof (total_bound f l Hf). unfold total in *. lia.
  - specialize (IH i Hi Hw). specialize (Hf x). lia.
Qed.

Lemma in_flight_insert l (i : nat) w w' :
  l !! i = Some w →
  in_flight (<[i := w']> l) ++ w_index w ≡ₚ in_flight l ++ w_index w'.
Proof.
  unfold in_flight. revert i. induction l as [|x l IH]; intros i Hi; [done|].
  destruct i as [|i]; simpl in Hi.
  - injection Hi as ->. change (<[0 := w']> (w :: l)) with (w' :: l).
    rewrite !bind_cons.
    rewrite (Permutation_app_comm (w_index w' ++ l ≫= w_index) (w_index w)).
    rewrite (Permutation_app_comm (w_index w') (l ≫= w_index)).
    by rewrite app_assoc.
  - change (<[S i := w']> (x :: l)) with (x :: <[i := w']> l).
    rewrite !bind_cons, <- !app_assoc. f_equiv. by apply IH.
Qed.

Lemma in_flight_replicate_recv (n : nat) :
  in_flight (replicate n (WRecv (T := T) (R := R) (E := E))) = [].
Proof.
  unfold in_flight. induction n as [|n IH]; [done|].
  rewrite replicate_S, bind_cons, IH. done.
Qed.

Lemma in_flight_exited l : Forall (λ w, w_alive w = 0) l → in_flight l = [].
Proof.
  unfold in_flight. induction 1 as [|w l Hw _ IH]; [done|].
  rewrite bind_cons, IH. by destruct w.
Qed.

Lemma first_error_snoc tr (o : out) :
  first_error (tr ++ [o]) =
    match first_error tr with Some e => Some e | None => o_err o end.
Proof.
  unfold first_error. rewrite omap_app. simpl.
  destruct (omap o_err tr) as [|e es]; simpl; [|done].
  by destruct (o_err o).
Qed.

Lemma collect_snoc tr (o : out) :
  collect o (o_val <$> tr) (first_error tr)
  = (o_val <$> (tr ++ [o]), first_error (tr ++ [o])).
Proof.
  unfold collect. rewrite fmap_app, first_error_snoc. simpl. f_equal.
  by destruct (o_err o), (first_error tr).
Qed.

Lemma clamp_positive (concurrency : Z) : 0 < clamp concurrency.
Proof. unfold clamp. destruct (Z.ltb_spec concurrency 1); lia. Qed.

Lemma inv_init (inputs : list T) (concurrency : Z) (σ : Σ) :
  inv worker inputs [] (init inputs concurrency σ).
Proof.
  constructor; simpl; try done.
  - rewrite in_flight_replicate_recv, !app_nil_r, fmap_imap.
    rewrite (imap_ext _ (λ j _, j)) by done.
    rewrite (imap_seq_0 inputs (λ j, j)). by rewrite list_fmap_id.
  - apply Forall_lookup. intros i it Hi. rewrite list_lookup_imap in Hi.
    unfold valid_item. destruct (inputs !! i) as [t|] eqn:Ht; [|done].
    injection Hi as <-. done.
  - by apply Forall_replicate.
  - by intros [? _]%elem_of_replicate.
  - rewrite total_replicate. simpl. lia.
  - by rewrite total_replicate.
  - rewrite length_replicate. apply clamp_positive.
Qed.

Lemma elem_of_insert_inv l (i : nat) w w' : w ∈ <[i := w']> l → w = w' ∨ w ∈ l.
Proof.
  revert i. induction l as [|x l IH]; intros i; [by right|].
  destruct i as [|i].
  - change (<[0 := w']> (x :: l)) with (w' :: l).
    rewrite !elem_of_cons. tauto.
  - change (<[S i := w']> (x :: l)) with (x :: <[i := w']> l).
    rewrite !elem_of_cons. intros [->|Hin]; [tauto|].
    destruct (IH i Hin); tauto.
Qed.

(** What an update of one goroutine does to the counts. *)
Lemma ws_update l (i : nat) w w' (inputs : list T) :
  l !! i = Some w →
  total w_alive (<[i := w']> l) + w_alive w = total w_alive l + w_alive w'
  ∧ total w_holds (<[i := w']> l) + w_holds w = total w_holds l + w_holds w'
  ∧ total w_weight (<[i := w']> l) + w_weight w = total w_weight l + w_weight w'
  ∧ in_flight (<[i := w']> l) ++ w_index w ≡ₚ in_flight l ++ w_index w'
  ∧ length (<[i := w']> l) = length l
  ∧ (Forall (valid_wstate worker inputs) l → valid_wstate worker inputs w' →
     Forall (valid_wstate worker inputs) (<[i := w']> l))
  ∧ (Forall (valid_wstate worker inputs) l → valid_wstate worker inputs w).
Proof.
  intros Hi. repeat split.
  - by apply total_insert.
  - by apply total_insert.
  - by apply total_insert.
  - by apply in_flight_insert.
  - apply length_insert.
  - apply Forall_insert.
  - intros Hall. by eapply Forall_lookup_1.
Qed.

Lemma inv_step (inputs : list T) tr p (lab : option out) p' :
  inv worker inputs tr p → step worker p lab p' →
  inv worker inputs (tr ++ option_list lab) p'.
Proof.
  intros [Hres Hfe Hidx Hfeed Hws Htr Hic Hex Hwg Hsem Hoc Hret Hn] Hstep.
  destruct Hstep as [p it rest i Hf Hi|p Hf Hc|p i Hc Hi|p i it Hi Hs
                    |p i it val err σ' Hi Hw|p i o Hi|p i o Hi Hr|p Hw Hc
                    |p Hc Hr];
    simpl; rewrite ?app_nil_r.
  - (* the feeder hands an item to a worker *)
    destruct (ws_update (ws p) i _ (WAcquire it) inputs Hi)
      as (Ha & Hh & _ & Hp & Hl & Hv & _). simpl in Ha, Hh, Hp.
    rewrite Hf in Hidx, Hfeed. apply Forall_cons in Hfeed as [Hit Hrest].
    constructor; simpl; try done; try lia.
    + rewrite app_nil_r in Hp. rewrite Hp, <- Hidx, fmap_cons.
      rewrite (Permutation_app_comm (in_flight (ws p)) [it_i it]). simpl.
      symmetry. apply Permutation_middle.
    + by apply Hv.
    + intros Htrue. by rewrite (Hic Htrue) in Hf.
    + intros [?|?]%elem_of_insert_inv; by auto.
  - (* the feeder closes the input channel *)
    constructor; simpl; try done. by rewrite Hf in Hidx.
  - (* a worker finds the input channel closed and leaves *)
    destruct (ws_update (ws p) i _ WExit inputs Hi)
      as (Ha & Hh & _ & Hp & Hl & Hv & _). simpl in Ha, Hh, Hp.
    constructor; simpl; try done; try lia.
    + rewrite !app_nil_r in Hp. by rewrite Hp.
    + by apply Hv.
    + auto.
    + intros Ho. specialize (Hoc Ho). lia.
  - (* a worker takes a token *)
    destruct (ws_update (ws p) i _ (WCall it) inputs Hi)
      as (Ha & Hh & _ & Hp & Hl & Hv & Hv'). simpl in Ha, Hh, Hp.
    constructor; simpl; try done; try lia.
    + apply Permutation_app_inv_r in Hp. by rewrite Hp.
    + apply Hv; [done|]. by apply Hv'.
    + intros [?|?]%elem_of_insert_inv; by auto.
  - (* a worker calls the worker function *)
    destruct (ws_update (ws p) i _
                (WRelease (Out (it_i it) val err)) inputs Hi)
      as (Ha & Hh & _ & Hp & Hl & Hv & Hv'). simpl in Ha, Hh, Hp.
    constructor; simpl; try done; try lia.
    + apply Permutation_app_inv_r in Hp. by rewrite Hp.
    + apply Hv; [done|]. specialize (Hv' Hws). simpl in Hv'.
      by exists (it_t it), (shared p), σ'.
    + intros [?|?]%elem_of_insert_inv; by auto.
  - (* a worker gives its token back *)
    destruct (ws_update (ws p) i _ (WSend o) inputs Hi)
      as (Ha & Hh & _ & Hp & Hl & Hv & Hv'). simpl in Ha, Hh, Hp.
    constructor; simpl; try done; try lia.
    + apply Permutation_app_inv_r in Hp. by rewrite Hp.
    + apply Hv; [done|]. by apply Hv'.
    + intros [?|?]%elem_of_insert_inv; by auto.
  - (* the collector receives a value *)
    destruct (ws_update (ws p) i _ WRecv inputs Hi)
      as (Ha & Hh & _ & Hp & Hl & Hv & Hv'). simpl in Ha, Hh, Hp.
    constructor; simpl; try done; try lia.
    + by rewrite Hres, fmap_app.
    + rewrite first_error_snoc, Hfe.
      by destruct (o_err o), (first_error tr).
    + rewrite app_nil_r in Hp. rewrite fmap_app. simpl.
      rewrite <- Hidx, <- Hp, <- app_assoc. do 2 f_equiv.
      apply Permutation_app_comm.
    + by apply Hv.
    + apply Forall_app. split; [done|]. apply Forall_singleton. by apply Hv'.
    + intros [?|?]%elem_of_insert_inv; by auto.
  - (* the output channel is closed *)
    constructor; simpl; try done.
  - (* the collector returns *)
    constructor; simpl; try done. intros _. by apply Hoc.
Qed.

Lemma inv_steps (inputs : list T) tr0 p tr p' :
  inv worker inputs tr0 p → steps worker p tr p' →
  inv worker inputs (tr0 ++ tr) p'.
Proof.
  intros Hinv Hsteps. revert tr0 Hinv.
  induction Hsteps as [p|p lab p1 tr p2 Hstep _ IH]; intros tr0 Hinv.
  - by rewrite app_nil_r.
  - rewrite app_assoc. apply IH. by eapply inv_step.
Qed.

(** When the pool has returned, nothing is left to do: every input
    index is in the collected sequence, once. *)
Lemma inv_returned_all (inputs : list T) tr p :
  inv worker inputs tr p → returned p = true →
  o_i <$> tr ≡ₚ seq 0 (length inputs).
Proof.
  intros [Hres Hfe Hidx Hfeed Hws Htr Hic Hex Hwg Hsem Hoc Hret Hn] Hr.
  specialize (Hoc (Hret Hr)). rewrite Hwg in Hoc.
  apply total_zero_Forall in Hoc.
  rewrite (in_flight_exited _ Hoc) in Hidx.
  assert (Hclosed : in_closed p = true).
  { apply Hex. destruct (ws p) as [|w l]; [simpl in Hn; lia|].
    apply Forall_cons in Hoc as [Hw _]. destruct w; try done. by left. }
  by rewrite (Hic Hclosed) in Hidx.
Qed.

(** Every step brings the pool closer to its return. *)
Lemma step_measure p (lab : option out) p' :
  step worker p lab p' → measure p' < measure p.
Proof.
  intros Hstep.
  destruct Hstep as [p it rest i Hf Hi|p Hf Hc|p i Hc Hi|p i it Hi Hs
                    |p i it val err σ' Hi Hw|p i o Hi|p i o Hi Hr|p Hw Hc
                    |p Hc Hr];
    unfold measure; simpl;
    try (match goal with
         | |- context [<[i := ?w']> (ws p)] =>
             destruct (ws_update (ws p) i _ w' [] Hi) as (_ & _ & Hwt & _);
             simpl in Hwt
         end);
    rewrite ?Hf, ?Hc, ?Hr; simpl; lia.
Qed.

Lemma total_positive (f : wstate → nat) l :
  0 < total f l → ∃ i w, l !! i = Some w ∧ 0 < f w.
Proof.
  unfold total. induction l as [|x l IH]; simpl; [lia|]. intros Hpos.
  destruct (decide (0 < f x)) as [Hx|Hx]; [by exists 0, x|].
  destruct IH as (i & w & Hi & Hw); [lia|]. by exists (S i), w.
Qed.

(** A pool that has not returned can take a step: it never blocks,
    provided the worker returns on every input. *)
Lemma pool_progress (inputs : list T) tr p :
  (∀ t σ, ∃ val err σ', worker t σ val err σ') →
  inv worker inputs tr p → returned p = false →
  ∃ lab p', step worker p lab p'.
Proof.
  intros Htotal [Hres Hfe Hidx Hfeed Hws Htr Hic Hex Hwg Hsem Hoc Hret Hn] Hr.
  destruct (out_closed p) eqn:Ho.
  { eexists _, _. by apply step_return. }
  destruct (decide (wg p = 0)) as [Hz|Hnz].
  { eexists _, _. by apply step_close_out. }
  destruct (total_positive w_alive (ws p)) as (i & w & Hi & Hw); [lia|].
  destruct w as [|it|it|o|o|]; simpl in Hw; [| | | | |lia].
  - destruct (feed p) as [|it rest] eqn:Hf.
    + destruct (in_closed p) eqn:Hc.
      * eexists _, _. by eapply step_exit.
      * eexists _, _. by apply step_close_in.
    + eexists _, _. by eapply step_feed.
  - eexists _, _. eapply step_acquire; [done|]. rewrite Hsem.
    eapply total_bound_strict; [|done|done]. intros []; simpl; lia.
  - destruct (Htotal (it_t it) (shared p)) as (val & err & σ' & Hcall).
    eexists _, _. by eapply step_call.
  - eexists _, _. by eapply step_release.
  - eexists _, _. by eapply step_collect.
Qed.

(** From every state of an execution the pool reaches its return. *)
Lemma pool_completes (inputs : list T) tr0 p :
  (∀ t σ, ∃ val err σ', worker t σ val err σ') →
  inv worker inputs tr0 p →
  ∃ tr p', steps worker p tr p' ∧ returned p' = true.
Proof.
  intros Htotal. remember (measure p) as n eqn:Hn. revert tr0 p Hn.
  induction n as [n IH] using lt_wf_ind. intros tr0 p -> Hinv.
  destruct (returned p) eqn:Hr.
  { exists [], p. split; [constructor|done]. }
  destruct (pool_progress inputs tr0 p Htotal Hinv Hr) as (lab & p1 & Hstep).
  destruct (IH (measure p1) (step_measure _ _ _ Hstep)
              (tr0 ++ option_list lab) p1 eq_refl
              (inv_step _ _ _ _ _ Hinv Hstep)) as (tr & p2 & Hsteps & Hr2).
  exists (option_list lab ++ tr), p2. split; [by econstructor|done].
Qed.

Lemma first_error_all_fail tr :
  tr ≠ [] → Forall (λ o, o_err o ≠ None) tr → first_error tr ≠ None.
Proof.
  intros Hne Hall. destruct tr as [|o tr]; [done|].
  apply Forall_cons in Hall as [Ho _]. unfold first_error. simpl.
  by destruct (o_err o).
Qed.

Lemma runWorkers_returns (inputs : list T) (concurrency : Z) (σ : Σ) :
  (∀ t σ, ∃ val err σ', worker t σ val err σ') →
  ∃ res fe σ', runWorkers worker inputs concurrency σ res fe σ'.
Proof.
  intros Htotal.
  destruct (pool_completes inputs [] (init inputs concurrency σ) Htotal
              (inv_init inputs concurrency σ)) as (tr & p & Hsteps & Hr).
  exists (results p), (firstErr p), (shared p), tr, p. by repeat split.
Qed.

Lemma runWorkers_collected (inputs : list T) (concurrency : Z) (σ : Σ)
    (res : list R) (fe : option E) (σ' : Σ) :
  runWorkers worker inputs concurrency σ res fe σ' →
  ∃ tr, res = o_val <$> tr
        ∧ fe = first_error tr
        ∧ o_i <$> tr ≡ₚ seq 0 (length inputs)
        ∧ Forall (valid_out worker inputs) tr.
Proof.
  intros (tr & p & Hsteps & Hr & <- & <- & <-).
  pose proof (inv_steps inputs [] _ _ _ (inv_init inputs concurrency σ) Hsteps)
    as Hinv. simpl in Hinv.
  pose proof (inv_returned_all _ _ _ Hinv Hr) as Hperm.
  destruct Hinv as [Hres Hfe _ _ _ Htr _ _ _ _ _ _ _].
  by exists tr.
Qed.

Lemma omap_lookup_seq (pre inputs : list T) :
  omap (λ i, (pre ++ inputs) !! i) (seq (length pre) (length inputs)) = inputs.
Proof.
  revert pre. induction inputs as [|x inputs IH]; intros pre; [done|].
  simpl. rewrite list_lookup_middle by done. f_equal.
  specialize (IH (pre ++ [x])).
  rewrite <- app_assoc, length_app in IH. simpl in IH.
  by rewrite Nat.add_1_r in IH.
Qed.

(** The collected values, read back as inputs, are the inputs: each
    input has been worked on once. *)
Lemma collected_inputs (inputs : list T) (f : R → T) tr :
  Forall (λ o, inputs !! o_i o = Some (f (o_val o))) tr →
  o_i <$> tr ≡ₚ seq 0 (length inputs) →
  f <$> (o_val <$> tr) ≡ₚ inputs.
Proof.
  intros Hall Hperm.
  assert (Heq : f <$> (o_val <$> tr) = omap (λ i, inputs !! i) (o_i <$> tr)).
  { clear Hperm. induction Hall as [|o tr Ho _ IH]; [done|].
    rewrite !fmap_cons. simpl. by rewrite Ho, IH. }
  rewrite Heq, Hperm. pose proof (omap_lookup_seq [] inputs) as Hs.
  simpl in Hs. by rewrite Hs.
Qed.

(** C4.  If the worker returns on every input, [runWorkers] returns
    (it never blocks, and every step brings it closer to its return),
    and whatever the interleaving: the results are as many as the
    inputs; they are the values of the collected sequence, which holds
    the outcome of the worker for each input index exactly once,
    failed or not, in the order of completion; and the first error is
    the first error of that sequence.  When every invocation fails and
    there is at least one input, the first error is not nil. *)
Theorem runWorkers_collects_all (inputs : list T) (concurrency : Z) (σ : Σ) :
  (∀ t σ, ∃ val err σ', worker t σ val err σ') →
  (∃ res fe σ', runWorkers worker inputs concurrency σ res fe σ')
  ∧ (∀ res fe σ', runWorkers worker inputs concurrency σ res fe σ' →
       length res = length inputs
       ∧ ∃ tr, res = o_val <$> tr
               ∧ fe = first_error tr
               ∧ o_i <$> tr ≡ₚ seq 0 (length inputs)
               ∧ Forall (valid_out worker inputs) tr
               ∧ ((∀ t σ val err σ', worker t σ val err σ' → err ≠ None) →
                  inputs ≠ [] → fe ≠ None))
  ∧ (∀ p lab p', step worker p lab p' → measure p' < measure p).
Proof.
  intros Htotal. split; [by apply runWorkers_returns|].
  split; [|apply step_measure].
  intros res fe σ' (tr & -> & -> & Hperm & Htr)%runWorkers_collected.
  assert (Hlen : length tr = length inputs).
  { apply Permutation_length in Hperm.
    by rewrite length_fmap, length_seq in Hperm. }
  split; [by rewrite length_fmap|].
  exists tr. repeat split; try done.
  intros Hfail Hne. apply first_error_all_fail.
  - intros ->. by destruct inputs.
  - eapply Forall_impl; [exact Htr|].
    intros o (t & σ1 & σ2 & _ & Hw). by eapply Hfail.
Qed.

End PoolFacts.

Lemma runWorkers_collects_all_witness :
  (∃ res fe σ', Pool.runWorkers failing_worker [1; 2; 3] 2 tt res fe σ')
  ∧ (∀ res fe σ', Pool.runWorkers failing_worker [1; 2; 3] 2 tt res fe σ' →
       length res = length [1; 2; 3]
       ∧ ∃ tr, res = Pool.o_val <$> tr
               ∧ fe = Pool.first_error tr
               ∧ Pool.o_i <$> tr ≡ₚ seq 0 (length [1; 2; 3])
               ∧ Forall (Pool.valid_out failing_worker [1; 2; 3]) tr
               ∧ ((∀ t σ val err σ', failing_worker t σ val err σ' → err ≠ None) →
                  [1; 2; 3] ≠ [] → fe ≠ None))
  ∧ (∀ p lab p', Pool.step failing_worker p lab p' →
                 Pool.measure p' < Pool.measure p).
Proof.
  apply (runWorkers_collects_all failing_worker [1; 2; 3] 2 tt).
  intros t σ. exists t, (Some "failed"), σ. repeat split; reflexivity.
Defined.

(** ** The scan pipeline *)

Section Pipeline.
Context `{W : World}.

Lemma check_worker_total (lang : language) (name : string) (cache : gmap string Z) :
  ∃ val err cache', check_worker lang name cache val err cache'.
Proof. eexists _, _, _. by repeat split. Qed.

Lemma checkURLDependencies_total (u : string) (threads : Z) (cache : gmap string Z) :
  ∃ vv e cache', checkURLDependencies u threads cache vv e cache'.
Proof.
  destruct (getDependencies u) as [e|[deps lang]] eqn:Hd.
  - eexists _, _, _. by apply check_failed.
  - destruct deps as [|d deps].
    + eexists _, _, _. by eapply check_no_deps.
    + destruct (runWorkers_returns (check_worker lang)
                  (dedup_names (d :: deps)) threads cache
                  (check_worker_total lang)) as (outs & fe & cache' & Hrun).
      eexists _, _, _. by eapply check_deps.
Qed.

Lemma url_worker_total (threads : Z) (u : string) (cache : gmap string Z) :
  ∃ val err cache', url_worker threads u cache val err cache'.
Proof.
  destruct (checkURLDependencies_total u threads cache) as (vv & e & cache' & Hc).
  eexists _, _, _. split; [done|]. by eexists _, _.
Qed.

Lemma main_returns (threads : Z) (stdin : list string) :
  ∃ output, main threads stdin output.
Proof.
  destruct (decide (read_lines stdin = [])) as [Hl|Hl].
  { eexists. by apply main_no_lines. }
  destruct (decide (filterManifestURLs (read_lines stdin) = [])) as [Hu|Hu].
  { eexists. by apply main_no_urls. }
  destruct (runWorkers_returns (url_worker (clamp_threads threads))
              (filterManifestURLs (read_lines stdin)) (clamp_threads threads) ∅
              (url_worker_total (clamp_threads threads)))
    as (results & fe & cache' & Hrun).
  eexists. by eapply main_scan.
Qed.

(** A failed fetch, and a manifest that does not decode, make
    [getDependencies] fail. *)
Lemma fetch_failure (u body : string) (status : Z) (e : error) :
  httpGET u = (body, status, Some e) → getDependencies u = inl e.
Proof. intros Hget. unfold getDependencies. by rewrite Hget. Qed.

Lemma extraction_failure (u body : string) (status : Z) (e : error) :
  httpGET u = (body, status, None) →
  strings.EqualFold (path.Base u) "package.json" = true →
  json_Unmarshal body = inl e →
  getDependencies u = inl e.
Proof.
  intros Hget Hbase Hjson. rewrite (package_json_branch _ _ _ Hget Hbase).
  by rewrite Hjson.
Qed.

Lemma checkURLDependencies_failed (u : string) (threads : Z)
    (cache cache' : gmap string Z) (vv : list vuln) (e : option error) (err : error) :
  getDependencies u = inl err →
  checkURLDependencies u threads cache vv e cache' →
  vv = [] ∧ e = Some err ∧ cache' = cache.
Proof.
  intros Hd Hc.
  inversion Hc as [e' He'|lang He'|deps lang outs fe c' He' _ _]; subst;
    rewrite Hd in He'; by simplify_eq.
Qed.

Lemma elem_of_report (results : list outp) (v : vuln) (u : string) :
  (v, u) ∈ report results
  ↔ ∃ r, r ∈ results ∧ out_err r = None ∧ v ∈ out_vulns r ∧ out_u r = u.
Proof.
  unfold report. rewrite list_elem_of_bind. split.
  - intros (r & Hv & Hr). exists r. split; [done|].
    destruct (out_err r); [by apply elem_of_nil in Hv|].
    apply list_elem_of_fmap in Hv as (v' & [= -> ->] & Hv). done.
  - intros (r & Hr & He & Hv & <-). exists r. split; [|done].
    rewrite He. apply list_elem_of_fmap. by exists v.
Qed.

(** What [main] prints comes from one result per accepted URL. *)
Lemma main_results (threads : Z) (stdin : list string) (output : list (vuln * string)) :
  main threads stdin output →
  ∃ results,
    output = report results
    ∧ out_u <$> results ≡ₚ filterManifestURLs (read_lines stdin)
    ∧ Forall (λ r, ∃ cache cache',
                checkURLDependencies (out_u r) (clamp_threads threads) cache
                  (out_vulns r) (out_err r) cache') results.
Proof.
  intros Hmain.
  inversion Hmain as [Hl|Hl Hu|results fe cache' Hl Hu Hrun]; subst.
  - exists []. rewrite Hl. by repeat split.
  - exists []. rewrite Hu. by repeat split.
  - apply runWorkers_collected in Hrun as (tr & -> & _ & Hperm & Htr).
    exists (Pool.o_val <$> tr). split; [done|]. split.
    + apply collected_inputs; [|done].
      eapply Forall_impl; [exact Htr|].
      intros [i val err] (t & σ1 & σ2 & Ht & _ & vv & e & _ & Hval).
      simpl in *. by subst val.
    + apply Forall_fmap. eapply Forall_impl; [exact Htr|].
      intros [i val err] (t & σ1 & σ2 & Ht & _ & vv & e & Hc & Hval).
      simpl in *. subst val. by exists σ1, σ2.
Qed.

(** C5.  The scan always ends with an output, which holds findings
    only.  Every accepted URL has one result, whatever happens to the
    others.  A URL whose fetch fails or whose content cannot be
    decoded (so that [getDependencies] fails) has a result with the
    error and no vulnerability, and the report skips it: no finding
    in the output refers to that URL. *)
Theorem failed_url_is_abandoned (threads : Z) (stdin : list string) :
  (∃ output, main threads stdin output)
  ∧ (∀ output, main threads stdin output →
       (∀ u e v, getDependencies u = inl e → (v, u) ∉ output)
       ∧ ∃ results,
           output = report results
           ∧ out_u <$> results ≡ₚ filterManifestURLs (read_lines stdin)
           ∧ Forall (λ r, ∃ cache cache',
                       checkURLDependencies (out_u r) (clamp_threads threads)
                         cache (out_vulns r) (out_err r) cache') results
           ∧ Forall (λ r, ∀ e, getDependencies (out_u r) = inl e →
                       out_vulns r = [] ∧ out_err r = Some e) results)
  ∧ (∀ u body status e,
       httpGET u = (body, status, Some e) → getDependencies u = inl e)
  ∧ (∀ u body status e,
       httpGET u = (body, status, None) →
       strings.EqualFold (path.Base u) "package.json" = true →
       json_Unmarshal body = inl e → getDependencies u = inl e).
Proof.
  split; [apply main_returns|].
  split; [|split; [apply fetch_failure|apply extraction_failure]].
  intros output (results & -> & Hperm & Hall)%main_results.
  assert (Hfailed : Forall (λ r, ∀ e, getDependencies (out_u r) = inl e →
                              out_vulns r = [] ∧ out_err r = Some e) results).
  { eapply Forall_impl; [exact Hall|].
    intros r (cache & cache' & Hc) e He.
    by destruct (checkURLDependencies_failed _ _ _ _ _ _ _ He Hc) as (? & ? & _). }
  split; [|by exists results].
  intros u e v He (r & Hr & Herr & Hv & <-)%elem_of_report.
  destruct (proj1 (Forall_forall _ _) Hfailed r Hr e He) as [_ Hsome].
  congruence.
Qed.

End Pipeline.

(** ** Worked examples *)

Example manifestRe_examples :
  MatchString manifestRe "/a/b/Package.JSON?x=1" = true
  ∧ MatchString manifestRe "/a/b/xpackage.json" = false
  ∧ MatchString manifestRe "Pipfile.lock" = true
  ∧ MatchString manifestRe "/a/go.mod/x" = true
  ∧ MatchString manifestRe "/a/go.model" = false.
Proof. repeat split; by vm_compute. Qed.

Example importReqRe_example :
  FindAllStringSubmatch importReqRe example_source
  = [ ("import foo from 'lodash'", "", "lodash");
      ("require('./local')", "./local", "") ].
Proof. by vm_compute. Qed.

Example scopedRe_example :
  FindAllString scopedRe "x @a/b ./@c/d.e @f @g/" = ["@a/b"; "@c/d.e"].
Proof. by vm_compute. Qed.

Example Split_example :
  Split reqSplitRe "requests==2.31.0" = ["requests"; ""; "2.31.0"]
  ∧ Split reqSplitRe "flask" = ["flask"]
  ∧ Split reqSplitRe "[extras]" = [""; "extras"; ""].
Proof. repeat split; by vm_compute. Qed.

Example Base_examples :
  path.Base "https://example.com/app/Package.JSON" = "Package.JSON"
  ∧ path.Base "https://example.com/app/package.json/" = "package.json"
  ∧ path.Base "https://example.com/a.js?next=/package.json" = "package.json"
  ∧ path.Base "" = "." ∧ path.Base "///" = "/".
Proof. repeat split; by vm_compute. Qed.

Example classifier_example :
  filterManifestURLs (W := example_world)
    [ "  https://example.com/app/package.json ";
      "https://example.com/index.html";
      "not a url";
      "https://example.com/package.json?v=1";
      "https://example.com/app/package.json";
      "https://cdn.example.com/app.js" ]
  = [ "https://example.com/app/package.json";
      "https://example.com/package.json?v=1";
      "https://cdn.example.com/app.js" ].
Proof. by vm_compute. Qed.

Example isUnclaimed_examples :
  (isUnclaimed (W := example_world) "left-pad" langJS ∅).1 = (true, 404%Z)
  ∧ (isUnclaimed (W := example_world) "mocha" langJS ∅).1 = (false, 200%Z)
  ∧ (isUnclaimed (W := example_world) "mocha" langJS
       {[ "https://registry.npmjs.org/mocha/" := 302%Z ]}).1 = (false, 302%Z)
  ∧ (isUnclaimed (W := example_world) "mocha" langPython ∅).1 = (true, 404%Z).
Proof. repeat split; by vm_compute. Qed.

(* ================================================================= *)
(** * Further properties of the code *)

(** ** Trimming *)

Section Trim.
Variable width : list ascii → nat.

Lemma trim_go_suffix (skip : nat) (l : list ascii) :
  strings.trim_go width skip l `suffix_of` l.
Proof.
  revert skip. induction l as [|x l IH]; intros skip; simpl; [done|].
  destruct skip as [|k]; [destruct (width (x :: l))|]; try done;
    by apply suffix_cons_r.
Qed.

(** What is left after trimming does not start with white space. *)
Lemma trim_go_stable (skip : nat) (l : list ascii) :
  strings.trim_go width skip l = [] ∨ width (strings.trim_go width skip l) = 0.
Proof.
  revert skip. induction l as [|x l IH]; intros skip; simpl; [by left|].
  destruct skip as [|k]; [|done].
  destruct (width (x :: l)) eqn:Hw; [by right|done].
Qed.

Lemma trim_go_fixed (l : list ascii) :
  l = [] ∨ width l = 0 → strings.trim_go width 0 l = l.
Proof. intros [->|Hw]; [done|]. destruct l; [done|]. simpl. by rewrite Hw. Qed.

Lemma trim_go_idemp (l : list ascii) :
  strings.trim_go width 0 (strings.trim_go width 0 l) = strings.trim_go width 0 l.
Proof. apply trim_go_fixed, trim_go_stable. Qed.

End Trim.

(** A white-space rune at the head of a text stays one when the text
    goes on. *)
Lemma space_width_app (l x : list ascii) :
  strings.space_width l ≠ 0 →
  strings.space_width (l ++ x) = strings.space_width l.
Proof.
  destruct l as [|a [|b [|c l]]]; simpl; rewrite ?andb_false_r, ?andb_true_r;
    try done;
    repeat (match goal with
            | |- context [if ?b then _ else _] => destruct b eqn:?
            end; simpl; rewrite ?andb_false_r, ?andb_true_r; try done).
Qed.

Lemma TrimRight_prefix (l : list ascii) : strings.TrimRight_bytes l `prefix_of` l.
Proof.
  unfold strings.TrimRight_bytes. apply prefix_suffix_reverse.
  rewrite reverse_involutive. apply trim_go_suffix.
Qed.

Lemma TrimRight_idemp (l : list ascii) :
  strings.TrimRight_bytes (strings.TrimRight_bytes l) = strings.TrimRight_bytes l.
Proof.
  unfold strings.TrimRight_bytes. by rewrite reverse_involutive, trim_go_idemp.
Qed.

Lemma TrimLeft_TrimRight (l : list ascii) :
  l = [] ∨ strings.space_width l = 0 →
  strings.TrimLeft_bytes (strings.TrimRight_bytes l) = strings.TrimRight_bytes l.
Proof.
  intros Hl. apply trim_go_fixed.
  destruct (TrimRight_prefix l) as [x Hx].
  destruct (strings.TrimRight_bytes l) as [|a r] eqn:Hr; [by left|]. right.
  destruct Hl as [->|Hw]; [done|].
  destruct (strings.space_width (a :: r)) eqn:Hs; [done|].
  rewrite Hx, space_width_app in Hw by (rewrite Hs; lia). congruence.
Qed.

Lemma TrimSpace_bytes (s : string) :
  bytes (strings.TrimSpace s)
  = strings.TrimRight_bytes (strings.TrimLeft_bytes (bytes s)).
Proof. unfold strings.TrimSpace. apply bytes_text. Qed.

Lemma TrimSpace_idemp (s : string) :
  strings.TrimSpace (strings.TrimSpace s) = strings.TrimSpace s.
Proof.
  unfold strings.TrimSpace at 1. rewrite TrimSpace_bytes.
  rewrite TrimLeft_TrimRight by apply trim_go_stable.
  by rewrite TrimRight_idemp.
Qed.

(** Trimming only removes bytes. *)
Lemma TrimSpace_elem (s : string) (c : ascii) :
  c ∈ bytes (strings.TrimSpace s) → c ∈ bytes s.
Proof.
  rewrite TrimSpace_bytes. intros Hc.
  destruct (TrimRight_prefix (strings.TrimLeft_bytes (bytes s))) as [x Hx].
  destruct (trim_go_suffix strings.space_width 0 (bytes s)) as [y Hy].
  rewrite Hy. apply elem_of_app. right.
  unfold strings.TrimLeft_bytes in Hx. rewrite Hx. apply elem_of_app. by left.
Qed.

(** ** First-seen deduplication *)

Lemma first_seen_app (a b : list string) :
  first_seen (a ++ b) = first_seen a ++ filter (λ y, y ∉ a) (first_seen b).
Proof.
  induction a as [|x a IH]; simpl; [by rewrite filter_not_in_nil|].
  rewrite IH, filter_app. do 2 f_equal.
  rewrite list_filter_filter. apply list_filter_iff. intros y.
  rewrite not_elem_of_cons. tauto.
Qed.

Lemma filter_ne_fixed (l : list string) (x : string) :
  x ∉ l → filter (λ y, y ≠ x) l = l.
Proof.
  induction l as [|y l IH]; [done|]. intros [Hxy Hx]%not_elem_of_cons.
  rewrite filter_cons_True by done. by rewrite IH.
Qed.

Lemma first_seen_fixed (l : list string) : NoDup l → first_seen l = l.
Proof.
  induction 1 as [|x l Hx _ IH]; simpl; [done|].
  by rewrite IH, filter_ne_fixed.
Qed.

Lemma first_seen_sublist (l : list string) : first_seen l `sublist_of` l.
Proof.
  induction l as [|x l IH]; simpl; [done|].
  apply sublist_skip. etrans; [apply sublist_filter|done].
Qed.

Lemma fmap_fixed {A : Type} (f : A → A) (l : list A) :
  Forall (λ x, f x = x) l → f <$> l = l.
Proof. induction 1 as [|x l Hx _ IH]; [done|]. by rewrite fmap_cons, Hx, IH. Qed.

Lemma filter_fixed {A : Type} (P : A → Prop) `{!∀ x, Decision (P x)} (l : list A) :
  Forall P l → filter P l = l.
Proof.
  induction 1 as [|x l Hx _ IH]; [done|].
  by rewrite filter_cons_True, IH.
Qed.

Lemma trimmed_lines (lines : list string) :
  Forall (λ u, strings.TrimSpace u = u) (strings.TrimSpace <$> lines).
Proof. apply Forall_fmap, Forall_true. intros raw. apply TrimSpace_idemp. Qed.

(** ** The URL classifier: how it composes *)

Section ClassifierComposes.
Context `{W : World}.

Lemma candidates_app (l1 l2 : list string) :
  candidates (l1 ++ l2) = candidates l1 ++ candidates l2.
Proof. unfold candidates. by rewrite fmap_app, filter_app. Qed.

Lemma candidates_of_trimmed (l : list string) :
  Forall (λ u, strings.TrimSpace u = u) l →
  candidates l = filter (λ u, u ≠ "" ∧ accepts u = true) l.
Proof. intros Hl. unfold candidates. by rewrite fmap_fixed. Qed.

(** X1.  Lines 64-96.  The classifier works line by line: the output for
    more lines is the output for the first lines, followed by what the
    further lines give that is not yet there. *)
Theorem filterManifestURLs_app (l1 l2 : list string) :
  filterManifestURLs (l1 ++ l2)
  = filterManifestURLs l1
    ++ filter (λ u, u ∉ filterManifestURLs l1) (filterManifestURLs l2).
Proof.
  rewrite !filterManifestURLs_first_seen, candidates_app, first_seen_app.
  f_equal. apply list_filter_iff. intros u. by rewrite first_seen_elem.
Qed.

(** X2.  Lines 64-96.  Classifying the output again changes nothing: every
    output entry is trimmed, accepted and there once. *)
Theorem filterManifestURLs_idempotent (lines : list string) :
  filterManifestURLs (filterManifestURLs lines) = filterManifestURLs lines.
Proof.
  rewrite (filterManifestURLs_first_seen (filterManifestURLs lines)).
  assert (Hout : Forall (λ u, strings.TrimSpace u = u
                              ∧ u ≠ "" ∧ accepts u = true)
                   (filterManifestURLs lines)).
  { apply Forall_forall. intros u (Hin & Hne & Hacc)%elem_of_filterManifestURLs.
    split; [|done]. apply list_elem_of_fmap in Hin as (raw & -> & _).
    apply TrimSpace_idemp. }
  rewrite candidates_of_trimmed, filter_fixed.
  - apply first_seen_fixed. rewrite filterManifestURLs_first_seen.
    apply first_seen_NoDup.
  - eapply Forall_impl; [exact Hout|]. by intros u (_ & ? & ?).
  - eapply Forall_impl; [exact Hout|]. by intros u (? & _).
Qed.

Lemma filter_read_lines (stdin : list string) :
  filterManifestURLs (read_lines stdin) = filterManifestURLs stdin.
Proof.
  rewrite !filterManifestURLs_first_seen. f_equal.
  unfold read_lines. rewrite candidates_of_trimmed.
  - unfold candidates. rewrite list_filter_filter.
    apply list_filter_iff. intros u. tauto.
  - apply Forall_forall. intros u [_ Hu]%list_elem_of_filter.
    by apply (proj1 (Forall_forall _ _) (trimmed_lines stdin)).
Qed.

(** X3.  Lines 404-418.  [main] trims the lines and drops the empty ones
    before it calls the classifier, which does both again: the
    classifier gives the same on the lines as read, and it returns
    nothing exactly when no trimmed line is accepted, so that the two
    silent exits of [main] depend on the accepted lines only. *)
Theorem filterManifestURLs_read_lines (stdin : list string) :
  filterManifestURLs (read_lines stdin) = filterManifestURLs stdin
  ∧ read_lines (read_lines stdin) = read_lines stdin
  ∧ (read_lines stdin = [] → filterManifestURLs stdin = [])
  ∧ (filterManifestURLs stdin = []
     ↔ ∀ raw, raw ∈ stdin → strings.TrimSpace raw ≠ "" →
              accepts (strings.TrimSpace raw) = false).
Proof.
  split; [apply filter_read_lines|]. split; [|split].
  - unfold read_lines. rewrite fmap_fixed.
    + rewrite list_filter_filter. apply list_filter_iff. intros u. tauto.
    + apply Forall_forall. intros u [_ Hu]%list_elem_of_filter.
      by apply (proj1 (Forall_forall _ _) (trimmed_lines stdin)).
  - intros Hnil. by rewrite <- filter_read_lines, Hnil.
  - split.
    + intros Hnil raw Hraw Hne. destruct (accepts _) eqn:Hacc; [|done].
      assert (Hin : strings.TrimSpace raw ∈ filterManifestURLs stdin).
      { apply elem_of_filterManifestURLs. split; [|done].
        apply list_elem_of_fmap. by exists raw. }
      rewrite Hnil in Hin. by apply elem_of_nil in Hin.
    + intros Hall. destruct (filterManifestURLs stdin) as [|u l] eqn:Hf; [done|].
      assert (Hin : u ∈ filterManifestURLs stdin) by (rewrite Hf; by left).
      apply elem_of_filterManifestURLs in Hin as (Hin & Hne & Hacc).
      apply list_elem_of_fmap in Hin as (raw & -> & Hraw).
      rewrite (Hall raw Hraw Hne) in Hacc. done.
Qed.

(** X4.  Lines 64-96.  The classifier only drops lines: its output is a
    subsequence of the trimmed lines, in their order. *)
Theorem filterManifestURLs_sublist (lines : list string) :
  filterManifestURLs lines `sublist_of` (strings.TrimSpace <$> lines).
Proof.
  rewrite filterManifestURLs_first_seen.
  etrans; [apply first_seen_sublist|]. apply sublist_filter.
Qed.

End ClassifierComposes.

(** ** The names that are checked *)

Lemma dedup_fold (deps : list string) (seen : gset string) (inputs : list string) :
  (∀ d, d ∈ seen ↔ d ∈ inputs) →
  (foldl dedup_step (seen, inputs) deps).2
  = inputs ++ filter (λ d, d ∉ inputs)
                (first_seen (filter (λ d, d ≠ "") (strings.TrimSpace <$> deps))).
Proof.
  revert seen inputs. induction deps as [|raw deps IH]; intros seen inputs Hseen.
  { simpl. by rewrite app_nil_r. }
  simpl. rewrite filter_cons.
  set (d := strings.TrimSpace raw).
  destruct (decide (d = "")) as [He|He].
  { rewrite bool_decide_eq_true_2 by done. rewrite decide_False by tauto.
    by apply IH. }
  rewrite bool_decide_eq_false_2, decide_True by done. simpl.
  rewrite filter_cons.
  destruct (decide (d ∈ seen)) as [Hin|Hin].
  - rewrite bool_decide_eq_true_2 by done.
    rewrite decide_False by (rewrite <- Hseen; tauto).
    rewrite IH by done. f_equal. symmetry.
    apply filter_not_in_absorb. by apply Hseen.
  - rewrite bool_decide_eq_false_2 by done.
    rewrite decide_True by (by rewrite <- Hseen).
    rewrite IH.
    + by rewrite <- app_assoc, filter_not_in_snoc.
    + intros v. rewrite elem_of_union, elem_of_singleton, elem_of_app,
        list_elem_of_singleton, Hseen. tauto.
Qed.

Lemma dedup_names_first_seen (deps : list string) :
  dedup_names deps
  = first_seen (filter (λ d, d ≠ "") (strings.TrimSpace <$> deps)).
Proof.
  unfold dedup_names. rewrite dedup_fold by set_solver.
  simpl. apply filter_not_in_nil.
Qed.


(** ** The dependency extractor: failures and results *)

Section ExtractorResults.
Context `{W : World}.

(** X6.  Lines 155-198.  [getDependencies] fails in two cases only: the
    fetch failed, or the URL is named package.json and its content
    does not decode.  Import analysis and the requirement list never
    fail, whatever the content. *)
Theorem getDependencies_fails_iff (targetURL : string) (e : error) :
  getDependencies targetURL = inl e
  ↔ (httpGET targetURL).2 = Some e
    ∨ ((httpGET targetURL).2 = None
       ∧ strings.EqualFold (path.Base targetURL) "package.json" = true
       ∧ json_Unmarshal (httpGET targetURL).1.1 = inl e).
Proof.
  unfold getDependencies.
  destruct (httpGET targetURL) as [[body status] [err|]]; simpl.
  { split; [intros [= ->]; by left|].
    intros [[= ->]|[? _]]; done. }
  destruct (strings.EqualFold (path.Base targetURL) "package.json").
  - destruct (json_Unmarshal body) as [err|pj].
    + split; [intros [= ->]; by right|]. by intros [?|(_ & _ & [= ->])].
    + split; [done|]. by intros [?|(_ & _ & ?)].
  - split; [|by intros [?|(_ & ? & _)]].
    destruct (looksLikeCodeFile targetURL); [|done].
    by destruct (0 <? length (extractPackagesFromJS body))%nat.
Qed.

(** X7.  Lines 162-174.  For a package.json, the names are the keys of the
    two maps, those of the first map first: a name is returned exactly
    when it is a key of one of the maps, and a key of both maps is
    returned twice. *)
Theorem package_json_names (targetURL body : string) (status : Z) (pj : packageJSON) :
  httpGET targetURL = (body, status, None) →
  strings.EqualFold (path.Base targetURL) "package.json" = true →
  json_Unmarshal body = inr pj →
  ∃ deps, getDependencies targetURL = inr (deps, langJS)
          ∧ (∀ k, k ∈ deps ↔ is_Some (Dependencies pj !! k)
                              ∨ is_Some (DevDependencies pj !! k))
          ∧ length deps = size (Dependencies pj) + size (DevDependencies pj)
          ∧ (NoDup deps ↔ dom (Dependencies pj) ## dom (DevDependencies pj)).
Proof.
  intros Hget Hbase Hjson. eexists. split.
  { rewrite (package_json_branch _ _ _ Hget Hbase), Hjson. done. }
  split; [|split].
  - intros k. by rewrite elem_of_app, !keys_elem.
  - unfold keys. by rewrite length_app, !length_fmap, !length_map_to_list.
  - rewrite NoDup_app. unfold keys at 1 3. split.
    + intros (_ & Hdisj & _) k Hk1 Hk2.
      apply elem_of_dom, keys_elem in Hk1. apply elem_of_dom, keys_elem in Hk2.
      by apply (Hdisj k).
    + intros Hdisj. split; [apply NoDup_fst_map_to_list|].
      split; [|apply NoDup_fst_map_to_list].
      intros k Hk1 Hk2. apply (Hdisj k); by apply elem_of_dom, keys_elem.
Qed.

End ExtractorResults.

(** X8.  Lines 183-197.  A name taken from a requirement list is not empty,
    is trimmed, and holds none of the delimiters (no version
    constraint, no extras, no white space of the pattern). *)
Theorem requirement_names_clean (body name : string) :
  name ∈ requirement_names body →
  name ≠ ""
  ∧ strings.TrimSpace name = name
  ∧ Forall (λ c, req_delim c = false) (bytes name).
Proof.
  rewrite requirement_names_refines. unfold requirement_names_spec.
  intros [Hne Hin]%list_elem_of_filter.
  apply list_elem_of_fmap in Hin as (line & -> & _).
  split; [done|]. split; [apply TrimSpace_idemp|].
  apply Forall_forall. intros c Hc%TrimSpace_elem.
  unfold leading_token in Hc. rewrite bytes_text in Hc.
  revert Hc. generalize (bytes line). intros l.
  induction l as [|x l IH]; simpl; [by intros ?%elem_of_nil|].
  destruct (req_delim x) eqn:Hx; [by intros ?%elem_of_nil|].
  intros [->|Hc]%elem_of_cons; auto.
Qed.

(** ** Import analysis: what is returned *)

Lemma matches_rep_class (g : bool) (p : ascii → bool) (c c' : cursor) :
  matches (Rep g (Class p)) c c' →
  ∃ l, ahead c = l ++ ahead c' ∧ Forall (λ x, p x = true) l.
Proof.
  intros Hm. remember (Rep g (Class p)) as r eqn:Hr.
  induction Hm; try discriminate.
  - by exists [].
  - injection Hr as -> ->. destruct IHHm2 as (l & Hl & Hall); [done|].
    apply matches_class in Hm1 as (x & s & Hs & Hx & ->). simpl in Hl.
    exists (x :: l). rewrite Hs, Hl. split; [done|]. by constructor.
Qed.

Lemma matches_plus_class (g : bool) (p : ascii → bool) (c c' : cursor) :
  matches (Plus g (Class p)) c c' →
  ∃ l, ahead c = l ++ ahead c' ∧ l ≠ [] ∧ Forall (λ x, p x = true) l.
Proof.
  unfold Plus. intros (c1 & H1 & H2)%matches_cat.
  apply matches_class in H1 as (x & s & Hs & Hx & ->).
  apply matches_rep_class in H2 as (l & Hl & Hall). simpl in Hl.
  exists (x :: l). rewrite Hs, Hl. split; [done|]. split; [done|].
  by constructor.
Qed.

(** The text a match of [scopedRe] covers: [@], a scope, [/], a name. *)
Lemma scopedRe_shape (b : bool) (s : list ascii) (len : nat) (caps : captures) :
  match_here scopedRe (Cursor b s) = Some (len, caps) →
  ∃ scope name,
    take len s = "@"%char :: scope ++ "/"%char :: name
    ∧ scope ≠ [] ∧ name ≠ []
    ∧ Forall (λ x, ident_byte x = true) scope
    ∧ Forall (λ x, ident_byte x = true) name.
Proof.
  intros Hh. apply match_here_sound in Hh as (c' & Hm & ->).
  unfold scopedRe, Cats in Hm. cbn [foldr] in Hm.
  apply matches_cat in Hm as (c1 & H1 & Hm).
  apply matches_class in H1 as (x & r & Hs & Hx & ->).
  apply bool_decide_eq_true in Hx as ->. simpl in Hs. subst s.
  apply matches_cat in Hm as (c2 & H2 & Hm).
  apply matches_plus_class in H2 as (scope & Hscope & Hne & Hall).
  apply matches_cat in Hm as (c3 & H3 & Hm).
  apply matches_class in H3 as (x & r3 & Hs3 & Hx & ->).
  apply bool_decide_eq_true in Hx as ->.
  apply matches_cat in Hm as (c4 & H4 & Hm).
  apply matches_plus_class in H4 as (name & Hname & Hne' & Hall').
  inversion Hm; subst. simpl in Hscope, Hname. simpl ahead.
  exists scope, name. rewrite Hscope, Hs3, Hname.
  split; [|done].
  replace ("@"%char :: scope ++ "/"%char :: name ++ ahead c')
    with (("@"%char :: scope ++ "/"%char :: name) ++ ahead c')
    by (simpl; by rewrite <- app_assoc).
  rewrite length_app, Nat.add_sub. by rewrite take_app_length.
Qed.

(** X9.  Line 32, lines 203-208.  A token found by the scoped pattern
    is [@], a scope, [/] and a name, in this order; scope and name are
    not empty and hold only letters, digits, [_], [.] and [-].  It
    therefore never starts with [.] or [/]: the test of lines 204-206
    lets every token through. *)
Theorem scoped_token_shape (content m : string) :
  m ∈ FindAllString scopedRe content →
  (∃ scope name,
      m = "@" +:+ scope +:+ "/" +:+ name
      ∧ scope ≠ "" ∧ name ≠ ""
      ∧ Forall (λ x, ident_byte x = true) (bytes scope)
      ∧ Forall (λ x, ident_byte x = true) (bytes name))
  ∧ scoped_keep m = true.
Proof.
  intros Hm. split.
  - unfold FindAllString, FindAll in Hm.
    apply list_elem_of_fmap in Hm as (f & -> & Hf).
    apply (all_matches_found scopedRe
             (λ s len, ∃ scope name,
                 take len s = "@"%char :: scope ++ "/"%char :: name
                 ∧ scope ≠ [] ∧ name ≠ []
                 ∧ Forall (λ x, ident_byte x = true) scope
                 ∧ Forall (λ x, ident_byte x = true) name)) in Hf
      as (_ & _ & scope & name & Htake & Hs & Hn & Has & Han).
    2: { intros b s len caps. apply scopedRe_shape. }
    rewrite Nat.sub_0_r in Htake. unfold slice. rewrite Htake.
    exists (text scope), (text name). rewrite !bytes_text.
    split; [|split; [|split; [|done]]].
    + change ("@"%char :: scope ++ "/"%char :: name)
        with (["@"%char] ++ scope ++ ["/"%char] ++ name).
      by rewrite !text_app.
    + intros He. apply Hs. by rewrite <- (bytes_text scope), He.
    + intros He. apply Hn. by rewrite <- (bytes_text name), He.
  - apply scoped_matches_at in Hm. unfold scoped_keep.
    destruct m as [|c m]; [done|].
    unfold strings.HasPrefix in *. cbn [String.prefix] in *.
    destruct (ascii_dec "@" c) as [<-|]; [|done]. by vm_compute.
Qed.

Lemma scoped_token_shape_witness :
  (∃ scope name,
      "@babel/core" = "@" +:+ scope +:+ "/" +:+ name
      ∧ scope ≠ "" ∧ name ≠ ""
      ∧ Forall (λ x, ident_byte x = true) (bytes scope)
      ∧ Forall (λ x, ident_byte x = true) (bytes name))
  ∧ scoped_keep "@babel/core" = true.
Proof.
  apply (scoped_token_shape "import x from '@babel/core';" "@babel/core").
  vm_compute. apply list_elem_of_here.
Defined.

(** ** The cache of HEAD requests *)

Section CacheFacts.
Context `{W : World}.

Lemma cache_consistent_empty : cache_consistent ∅.
Proof. intros u st Hu. by rewrite lookup_empty in Hu. Qed.

Lemma cache_consistent_insert (cache : gmap string Z) (u : string) (st : Z) :
  cache_consistent cache → http_NewRequest u = None → Do_HEAD u = inr st →
  cache_consistent (<[u := st]> cache).
Proof.
  intros Hc Hreq Hhead u' st'. destruct (decide (u' = u)) as [->|Hne].
  - rewrite lookup_insert_eq. by intros [= <-].
  - rewrite lookup_insert_ne by done. apply Hc.
Qed.


Lemma isUnclaimed_consistent (pkg : string) (lang : language)
    (cache : gmap string Z) :
  cache_consistent cache →
  (isUnclaimed pkg lang cache).1 = registry_answer pkg lang
  ∧ cache_consistent (isUnclaimed pkg lang cache).2
  ∧ cache ⊆ (isUnclaimed pkg lang cache).2.
Proof.
  intros Hc. unfold isUnclaimed, registry_answer, httpHEAD.
  destruct (cache !! checkURL pkg lang) as [st|] eqn:Hu.
  { destruct (Hc _ _ Hu) as [-> ->]. simpl.
    split; [by destruct (unclaimed_status st)|done]. }
  destruct (http_NewRequest (checkURL pkg lang)) eqn:Hreq; [done|].
  destruct (Do_HEAD (checkURL pkg lang)) as [e|st] eqn:Hhead; [done|].
  simpl. split; [by destruct (unclaimed_status st)|].
  split; [by apply cache_consistent_insert|by apply insert_subseteq].
Qed.


End CacheFacts.


(** ** The worker pool: the semaphore, shared state, one result per input *)

Section PoolFurther.
Import Pool.
Context {T R E Σ : Type}.
Variable worker : T → Σ → R → option E → Σ → Prop.
Implicit Types (p : pool (T := T) (R := R) (E := E) (Σ := Σ)).
Implicit Types (tr : list (out (R := R) (E := E))).

Lemma step_length p (lab : option out) p' :
  step worker p lab p' → length (ws p') = length (ws p).
Proof. destruct 1; simpl; by rewrite ?length_insert. Qed.

Lemma steps_length p tr p' :
  steps worker p tr p' → length (ws p') = length (ws p).
Proof.
  induction 1 as [|p l p' tr p'' Hstep _ IH]; [done|].
  rewrite IH. by eapply step_length.
Qed.

(** X13.  Lines 290-309.  In every state of a run of the pool, the
    number of goroutines is the clamped concurrency, the tokens in
    [sem] are the goroutines between acquiring and releasing, and
    there are never more of them than goroutines.  A goroutine that
    wants a token always finds one free: the semaphore never makes a
    goroutine wait. *)
Theorem pool_semaphore_never_blocks (inputs : list T) (concurrency : Z) (σ : Σ)
    tr p :
  steps worker (init inputs concurrency σ) tr p →
  length (ws p) = clamp concurrency
  ∧ sem p = total w_holds (ws p)
  ∧ sem p <= clamp concurrency
  ∧ (∀ (i : nat) it, ws p !! i = Some (WAcquire it) →
       sem p < clamp concurrency
       ∧ ∃ p', step worker p None p').
Proof.
  intros Hsteps.
  pose proof (inv_steps worker inputs [] _ _ _
                (inv_init worker inputs concurrency σ) Hsteps) as Hinv.
  pose proof (steps_length _ _ _ Hsteps) as Hlen. simpl in Hlen.
  rewrite length_replicate in Hlen.
  assert (Hholds : ∀ w : wstate (T := T) (R := R) (E := E), w_holds w <= 1)
    by (by intros []; simpl; lia).
  split; [done|]. split; [by apply inv_sem in Hinv|].
  split.
  { rewrite (inv_sem _ _ _ _ Hinv), <- Hlen. by apply total_bound. }
  intros i it Hi.
  assert (Hlt : sem p < length (ws p)).
  { rewrite (inv_sem _ _ _ _ Hinv). by eapply total_bound_strict. }
  split; [by rewrite <- Hlen|].
  eexists. by eapply step_acquire.
Qed.

Lemma step_guarded (I : Σ → Prop) p (lab : option out) p' :
  (∀ t σ val err σ', I σ → worker t σ val err σ' → I σ') →
  I (shared p) → step worker p lab p' →
  step (guarded I worker) p lab p' ∧ I (shared p').
Proof.
  intros Hpres HI Hstep.
  destruct Hstep; simpl; (split; [|by eauto]); by econstructor.
Qed.

Lemma steps_guarded (I : Σ → Prop) p tr p' :
  (∀ t σ val err σ', I σ → worker t σ val err σ' → I σ') →
  I (shared p) → steps worker p tr p' →
  steps (guarded I worker) p tr p' ∧ I (shared p').
Proof.
  intros Hpres HI Hsteps. induction Hsteps as [|p l p' tr p'' Hstep _ IH].
  { split; [constructor|done]. }
  destruct (step_guarded I _ _ _ Hpres HI Hstep) as [Hg HI'].
  destruct (IH HI') as [Hgs HI'']. split; [by econstructor|done].
Qed.

Lemma collected_related (P : T → R → Prop) (inputs : list T) tr :
  Forall (λ o, ∃ t, inputs !! o_i o = Some t ∧ P t (o_val o)) tr →
  o_i <$> tr ≡ₚ seq 0 (length inputs) →
  ∃ inputs', inputs' ≡ₚ inputs ∧ Forall2 P inputs' (o_val <$> tr).
Proof.
  intros Hall Hperm. exists (omap (λ i, inputs !! i) (o_i <$> tr)). split.
  - rewrite Hperm. pose proof (omap_lookup_seq [] inputs) as Heq.
    simpl in Heq. by rewrite Heq.
  - clear Hperm. induction Hall as [|o tr (t & Ht & HP) _ IH]; simpl; [done|].
    rewrite Ht. by constructor.
Qed.

Lemma runWorkers_related (I : Σ → Prop) (P : T → R → Prop)
    (inputs : list T) (concurrency : Z) (σ : Σ)
    (res : list R) (fe : option E) (σ' : Σ) :
  I σ →
  (∀ t σ val err σ', I σ → worker t σ val err σ' → P t val ∧ I σ') →
  runWorkers worker inputs concurrency σ res fe σ' →
  I σ' ∧ ∃ inputs', inputs' ≡ₚ inputs ∧ Forall2 P inputs' res.
Proof.
  intros HI Hw (tr & p & Hsteps & Hret & Hres & Hfe & Hsh).
  destruct (steps_guarded I (init inputs concurrency σ) tr p) as [Hg HI'];
    [intros t σ0 val err σ1 H0 H1; by eapply Hw|done|done|].
  split; [by rewrite <- Hsh|].
  destruct (runWorkers_collected (guarded I worker) inputs concurrency σ
              res fe σ') as (tr' & -> & _ & Hperm & Hvalid).
  { by exists tr, p. }
  apply (collected_related P inputs tr'); [|done].
  eapply Forall_impl; [exact Hvalid|].
  intros o (t & σ0 & σ1 & Ht & HI0 & Hcall). exists t. split; [done|].
  by eapply Hw.
Qed.

(** X14.  Lines 274-326.  Whatever the interleaving of the goroutines:
    a property of the shared state that holds at the start and that
    every call of the worker keeps, holds when the pool returns; and
    the results are, in some order, one result for each input, each
    related to its input as the worker guarantees in such states.
    When that relation fixes the result, the results are the images
    of the inputs, up to their order. *)
Theorem runWorkers_one_result_per_input (I : Σ → Prop) (P : T → R → Prop)
    (inputs : list T) (concurrency : Z) (σ : Σ)
    (res : list R) (fe : option E) (σ' : Σ) :
  I σ →
  (∀ t σ val err σ', I σ → worker t σ val err σ' → P t val ∧ I σ') →
  runWorkers worker inputs concurrency σ res fe σ' →
  I σ'
  ∧ (∃ inputs', inputs' ≡ₚ inputs ∧ Forall2 P inputs' res)
  ∧ length res = length inputs
  ∧ (∀ f : T → R, (∀ t r, P t r → r = f t) → res ≡ₚ f <$> inputs).
Proof.
  intros HI Hw Hrun.
  destruct (runWorkers_related I P inputs concurrency σ res fe σ' HI Hw Hrun)
    as (HI' & inputs' & Hperm & Hall).
  clear Hrun. split; [done|]. split; [by exists inputs'|]. split.
  - rewrite <- Hperm. clear Hperm. induction Hall; simpl; by f_equal.
  - intros f Hf. rewrite <- Hperm. clear Hperm.
    induction Hall as [|t r inputs' res HP _ IH]; [done|].
    rewrite fmap_cons, (Hf t r HP). by constructor.
Qed.

End PoolFurther.

(** A state reached after three steps on three inputs with two
    goroutines: the first goroutine holds a token and is in its call,
    the second has received its input and wants a token. *)
Lemma pool_semaphore_never_blocks_witness :
  let p := Pool.Pool_ (R := nat) (E := string)
             [Pool.Item 2 3] false
             [Pool.WCall (Pool.Item 0 1); Pool.WAcquire (Pool.Item 1 2)]
             1 2 false [] None false tt in
  Pool.ws p !! 1 = Some (Pool.WAcquire (Pool.Item 1 2))
  ∧ length (Pool.ws p) = Pool.clamp 2
  ∧ Pool.sem p = Pool.total Pool.w_holds (Pool.ws p)
  ∧ Pool.sem p <= Pool.clamp 2
  ∧ (∀ (i : nat) it, Pool.ws p !! i = Some (Pool.WAcquire it) →
       Pool.sem p < Pool.clamp 2
       ∧ ∃ p', Pool.step failing_worker p None p').
Proof.
  split; [reflexivity|].
  apply (pool_semaphore_never_blocks failing_worker [1; 2; 3] 2 tt []).
  refine (Pool.steps_step _ _ None
            (Pool.Pool_ [Pool.Item 1 2; Pool.Item 2 3] false
               [Pool.WAcquire (Pool.Item 0 1); Pool.WRecv] 0 2 false [] None
               false tt) [] _ _ _).
  { apply (Pool.step_feed failing_worker
             (Pool.init [1; 2; 3] 2 tt) (Pool.Item 0 1)
             [Pool.Item 1 2; Pool.Item 2 3] 0); reflexivity. }
  refine (Pool.steps_step _ _ None
            (Pool.Pool_ [Pool.Item 1 2; Pool.Item 2 3] false
               [Pool.WCall (Pool.Item 0 1); Pool.WRecv] 1 2 false [] None
               false tt) [] _ _ _).
  { apply (Pool.step_acquire failing_worker
             (Pool.Pool_ [Pool.Item 1 2; Pool.Item 2 3] false
                [Pool.WAcquire (Pool.Item 0 1); Pool.WRecv] 0 2 false [] None
                false tt) 0 (Pool.Item 0 1)); [reflexivity|simpl; lia]. }
  refine (Pool.steps_step _ _ None _ [] _ _ (Pool.steps_refl _ _)).
  apply (Pool.step_feed failing_worker
           (Pool.Pool_ [Pool.Item 1 2; Pool.Item 2 3] false
              [Pool.WCall (Pool.Item 0 1); Pool.WRecv] 1 2 false [] None
              false tt) (Pool.Item 1 2) [Pool.Item 2 3] 1); reflexivity.
Defined.

Lemma runWorkers_one_result_per_input_witness :
  ∃ res fe σ',
    Pool.runWorkers failing_worker [1; 2; 3] 2 tt res fe σ'
    ∧ σ' = tt
    ∧ (∃ inputs', inputs' ≡ₚ [1; 2; 3] ∧ Forall2 eq inputs' res)
    ∧ length res = length [1; 2; 3]
    ∧ (∀ f : nat → nat, (∀ t r, t = r → r = f t) → res ≡ₚ f <$> [1; 2; 3]).
Proof.
  destruct (runWorkers_returns failing_worker [1; 2; 3] 2 tt)
    as (res & fe & σ' & Hrun).
  { intros t σ. by exists t, (Some "failed"), σ. }
  exists res, fe, σ'. split; [exact Hrun|].
  apply (runWorkers_one_result_per_input failing_worker (λ σ, σ = tt) eq
           [1; 2; 3] 2 tt res fe σ'); [reflexivity| |exact Hrun].
  intros t σ val err σ0 Hσ (-> & _ & ->). split; [reflexivity|exact Hσ].
Defined.

(** ** What a run prints *)

Section Findings.
Context `{W : World}.

Lemma expected_finding_Some (lang : language) (name : string) (v : vuln) :
  expected_finding lang name = Some v
  ↔ Package v = name ∧ Language v = lang
    ∧ registry_answer name lang = (true, Status v).
Proof.
  unfold expected_finding. destruct (registry_answer name lang) as [[] code].
  - split.
    + by intros [= <-].
    + destruct v as [pk st lg]. simpl. by intros (-> & -> & [= ->]).
  - split; [done|]. by intros (_ & _ & ?).
Qed.

Lemma registry_answer_true (pkg : string) (lang : language) (st : Z) :
  registry_answer pkg lang = (true, st)
  ↔ http_NewRequest (checkURL pkg lang) = None
    ∧ Do_HEAD (checkURL pkg lang) = inr st
    ∧ st ≠ 200%Z ∧ st ≠ 302%Z.
Proof.
  unfold registry_answer. rewrite <- unclaimed_status_iff.
  destruct (http_NewRequest (checkURL pkg lang)).
  { split; [done|]. by intros [? _]. }
  destruct (Do_HEAD (checkURL pkg lang)) as [e|st'].
  { split; [done|]. by intros (_ & ? & _). }
  split.
  - by intros [= Hu ->].
  - intros (_ & [= ->] & ->). done.
Qed.

Lemma NoDup_omap_expected (lang : language) (names : list string) :
  NoDup names → NoDup (omap (expected_finding lang) names).
Proof.
  induction 1 as [|name names Hnotin _ IH]; simpl; [constructor|].
  destruct (expected_finding lang name) as [v|] eqn:Hv; [|done].
  constructor; [|done]. intros Hin.
  apply list_elem_of_omap in Hin as (name' & Hin & Hv').
  apply expected_finding_Some in Hv as (Hp & _).
  apply expected_finding_Some in Hv' as (Hp' & _). congruence.
Qed.

Lemma NoDup_expected_vulns (u : string) : NoDup (expected_vulns u).
Proof.
  unfold expected_vulns. destruct (getDependencies u) as [e|[deps lang]];
    [constructor|].
  apply NoDup_omap_expected. rewrite dedup_names_first_seen.
  apply first_seen_NoDup.
Qed.

Lemma NoDup_expected_output (stdin : list string) : NoDup (expected_output stdin).
Proof.
  unfold expected_output. apply NoDup_bind.
  - intros u1 u2 [v u] _ _ H1 H2.
    apply list_elem_of_fmap in H1 as (v1 & [= _ ->] & _).
    apply list_elem_of_fmap in H2 as (v2 & [= _ ->] & _). done.
  - intros u _. apply NoDup_fmap_2; [|apply NoDup_expected_vulns].
    by intros v1 v2 [= ->].
  - rewrite filterManifestURLs_first_seen. apply first_seen_NoDup.
Qed.

Lemma elem_of_expected_vulns (u : string) (v : vuln) :
  v ∈ expected_vulns u
  ↔ ∃ deps, getDependencies u = inr (deps, Language v)
            ∧ Package v ≠ ""
            ∧ Package v ∈ (strings.TrimSpace <$> deps)
            ∧ registry_answer (Package v) (Language v) = (true, Status v).
Proof.
  unfold expected_vulns. destruct (getDependencies u) as [e|[deps lang]].
  { split; [by intros ?%elem_of_nil|]. by intros (? & ? & _). }
  rewrite list_elem_of_omap. split.
  - intros (name & Hin & (<- & <- & Ha)%expected_finding_Some).
    exists deps. rewrite dedup_names_first_seen, first_seen_elem in Hin.
    apply list_elem_of_filter in Hin as [Hne Hin]. done.
  - intros (deps' & [= <- ->] & Hne & Hin & Ha).
    exists (Package v). split.
    + rewrite dedup_names_first_seen, first_seen_elem.
      by apply list_elem_of_filter.
    + by apply expected_finding_Some.
Qed.

Lemma check_worker_expected (lang : language) (cache0 : gmap string Z)
    (name : string) (cache : gmap string Z) (val : option vuln)
    (err : option error) (cache' : gmap string Z) :
  cache_consistent cache ∧ cache0 ⊆ cache →
  check_worker lang name cache val err cache' →
  val = expected_finding lang name ∧ cache_consistent cache' ∧ cache0 ⊆ cache'.
Proof.
  intros [Hc Hsub] (_ & -> & ->).
  destruct (isUnclaimed_consistent name lang cache Hc) as (-> & Hc' & Hsub').
  split; [done|]. split; [done|]. by etrans.
Qed.

Lemma Forall2_function {A B : Type} (f : A → B) (l : list A) (res : list B) :
  Forall2 (λ a b, b = f a) l res → res = f <$> l.
Proof. induction 1 as [|a b l res -> _ IH]; simpl; [done|]. by rewrite IH. Qed.

Lemma omap_id_fmap {A B : Type} (f : A → option B) (l : list A) :
  omap id (f <$> l) = omap f l.
Proof.
  induction l as [|a l IH]; [done|].
  rewrite fmap_cons. cbn [omap list_omap]. rewrite IH. by destruct (f a).
Qed.

Lemma checkURLDependencies_consistent (targetURL : string) (threads : Z)
    (cache : gmap string Z) (vv : list vuln) (e : option error)
    (cache' : gmap string Z) :
  cache_consistent cache →
  checkURLDependencies targetURL threads cache vv e cache' →
  vv ≡ₚ expected_vulns targetURL
  ∧ e = match getDependencies targetURL with inl err => Some err | inr _ => None end
  ∧ cache_consistent cache'
  ∧ cache ⊆ cache'.
Proof.
  intros Hc Hrun. unfold expected_vulns.
  destruct Hrun as [err Hget|lang Hget|deps lang outs fe cache' Hget Hne Hpool];
    rewrite Hget; [done|done|].
  apply (runWorkers_related (check_worker lang)
           (λ σ, cache_consistent σ ∧ cache ⊆ σ)
           (λ name val, val = expected_finding lang name)) in Hpool
    as ([Hc' Hsub] & names & Hperm & Hall); [|done|].
  - apply Forall2_function in Hall as ->.
    rewrite omap_id_fmap. by rewrite Hperm.
  - intros name σ val err σ' HI Hw.
    destruct (check_worker_expected lang cache name σ val err σ' HI Hw)
      as (? & ? & ?). done.
Qed.

End Findings.

Section Output.
Context `{W : World}.

(** The findings printed for one result of the outer pool. *)
Lemma report_join (results : list outp) :
  report results
  = mjoin ((λ r, match out_err r with
                 | Some _ => []
                 | None => (λ v, (v, out_u r)) <$> out_vulns r
                 end) <$> results).
Proof.
  unfold report. induction results as [|r results IH]; [done|].
  rewrite bind_cons, fmap_cons. cbn [mjoin list_join]. by rewrite IH.
Qed.

Lemma join_groups (E : string → list (vuln * string)) (urls : list string)
    (groups : list (list (vuln * string))) :
  Forall2 (λ u g, g ≡ₚ E u) urls groups → mjoin groups ≡ₚ urls ≫= E.
Proof.
  induction 1 as [|u g urls groups Hg _ IH]; [done|].
  rewrite bind_cons. cbn [mjoin list_join]. by rewrite Hg, IH.
Qed.

Lemma url_worker_expected (threads : Z) (u : string) (cache : gmap string Z)
    (val : outp) (err : option error) (cache' : gmap string Z) :
  cache_consistent cache → url_worker threads u cache val err cache' →
  (match out_err val with
   | Some _ => []
   | None => (λ v, (v, out_u val)) <$> out_vulns val
   end ≡ₚ (λ v, (v, u)) <$> expected_vulns u)
  ∧ cache_consistent cache'.
Proof.
  intros Hc (_ & vv & e & Hrun & ->). simpl.
  destruct (checkURLDependencies_consistent u threads cache vv e cache' Hc Hrun)
    as (Hvv & -> & Hc' & _).
  split; [|done]. unfold expected_vulns in *.
  destruct (getDependencies u) as [e'|[deps lang]]; [done|]. by rewrite Hvv.
Qed.

Lemma main_groups (threads : Z) (stdin : list string)
    (output : list (vuln * string)) :
  main threads stdin output →
  ∃ urls groups,
    urls ≡ₚ filterManifestURLs stdin
    ∧ Forall2 (λ u g, g ≡ₚ (λ v, (v, u)) <$> expected_vulns u) urls groups
    ∧ output = mjoin groups.
Proof.
  rewrite <- (filter_read_lines stdin).
  intros [Hnil|_ Hnil|results fe cache' _ _ Hpool].
  - exists [], []. by rewrite Hnil.
  - exists [], []. by rewrite Hnil.
  - apply (runWorkers_related (url_worker (clamp_threads threads))
             cache_consistent
             (λ u r, match out_err r with
                     | Some _ => []
                     | None => (λ v, (v, out_u r)) <$> out_vulns r
                     end ≡ₚ (λ v, (v, u)) <$> expected_vulns u)) in Hpool
      as (_ & urls & Hperm & Hall).
    + eexists urls, _. split; [done|]. split; [|apply report_join].
      by apply Forall2_fmap_r.
    + apply cache_consistent_empty.
    + intros u σ val err σ' Hc Hw. by eapply url_worker_expected.
Qed.

Lemma main_expected (threads : Z) (stdin : list string)
    (output : list (vuln * string)) :
  main threads stdin output → output ≡ₚ expected_output stdin.
Proof.
  intros (urls & groups & Hperm & Hall & ->)%main_groups.
  unfold expected_output. rewrite <- Hperm. by apply join_groups.
Qed.

(** X15.  Lines 328-371.  When every cached entry is the status of a
    successful request, [checkURLDependencies] returns, and whatever
    the interleaving of its goroutines and the number of threads, its
    findings are those an uncached check of each name gives, each
    once, in some order: a finding for a name exactly when the name is
    a non-empty trimmed dependency whose registry status is neither
    200 nor 302.  The error is that of the extraction; the cache it
    leaves extends the old one and has the same property. *)
Theorem checkURLDependencies_findings (targetURL : string) (threads : Z)
    (cache : gmap string Z) :
  cache_consistent cache →
  (∃ vv e cache', checkURLDependencies targetURL threads cache vv e cache')
  ∧ (∀ vv e cache',
       checkURLDependencies targetURL threads cache vv e cache' →
       vv ≡ₚ expected_vulns targetURL
       ∧ NoDup vv
       ∧ (∀ v, v ∈ vv
               ↔ ∃ deps, getDependencies targetURL = inr (deps, Language v)
                         ∧ Package v ≠ ""
                         ∧ Package v ∈ (strings.TrimSpace <$> deps)
                         ∧ http_NewRequest (checkURL (Package v) (Language v)) = None
                         ∧ Do_HEAD (checkURL (Package v) (Language v))
                           = inr (Status v)
                         ∧ Status v ≠ 200%Z ∧ Status v ≠ 302%Z)
       ∧ e = match getDependencies targetURL with
             | inl err => Some err
             | inr _ => None
             end
       ∧ cache_consistent cache'
       ∧ cache ⊆ cache').
Proof.
  intros Hc. split; [apply checkURLDependencies_total|].
  intros vv e cache' Hrun.
  destruct (checkURLDependencies_consistent _ _ _ _ _ _ Hc Hrun)
    as (Hvv & He & Hc' & Hsub).
  split; [done|]. split; [by rewrite Hvv; apply NoDup_expected_vulns|].
  split; [|done].
  intros v. rewrite Hvv, elem_of_expected_vulns.
  by setoid_rewrite registry_answer_true.
Qed.

(** X16.  Lines 388-450.  [main] returns, and whatever the
    interleaving of the goroutines and the value of the thread flag,
    it prints the same findings up to their order: for each accepted
    URL, in some order of the URLs, the findings of that URL in some
    order, one after the other.  No line is printed twice, and two
    runs on the same input print the same lines.  (A call of a worker
    is one step of its pool, and a HEAD request for a URL gets the
    same answer each time it is made.) *)
Theorem main_output (threads : Z) (stdin : list string) :
  (∃ output, main threads stdin output)
  ∧ (∀ output, main threads stdin output →
       output ≡ₚ expected_output stdin
       ∧ NoDup output
       ∧ ∃ urls groups,
           urls ≡ₚ filterManifestURLs stdin
           ∧ Forall2 (λ u g, g ≡ₚ (λ v, (v, u)) <$> expected_vulns u) urls groups
           ∧ output = mjoin groups)
  ∧ (∀ threads' output output',
       main threads stdin output → main threads' stdin output' →
       output ≡ₚ output').
Proof.
  split; [apply main_returns|]. split.
  - intros output Hmain. pose proof (main_expected _ _ _ Hmain) as Hperm.
    split; [done|]. split; [|by apply (main_groups threads)].
    rewrite Hperm. apply NoDup_expected_output.
  - intros threads' output output' H1%main_expected H2%main_expected.
    by rewrite H1, H2.
Qed.

(** X17.  Lines 388-450.  What is printed, end to end: a finding for a
    package at a URL is printed exactly when the URL is an accepted
    input line, the extraction at the URL succeeds with the language
    of the finding, the package is a non-empty trimmed name among its
    dependencies, and the HEAD request for the package succeeds with
    the status of the finding, which is neither 200 nor 302. *)
Theorem main_prints_iff (threads : Z) (stdin : list string) :
  (∃ output, main threads stdin output)
  ∧ (∀ output, main threads stdin output →
       ∀ v u, (v, u) ∈ output
              ↔ (∃ raw, raw ∈ stdin ∧ u = strings.TrimSpace raw)
                ∧ u ≠ "" ∧ accepts u = true
                ∧ ∃ deps, getDependencies u = inr (deps, Language v)
                          ∧ Package v ≠ ""
                          ∧ Package v ∈ (strings.TrimSpace <$> deps)
                          ∧ http_NewRequest (checkURL (Package v) (Language v))
                            = None
                          ∧ Do_HEAD (checkURL (Package v) (Language v))
                            = inr (Status v)
                          ∧ Status v ≠ 200%Z ∧ Status v ≠ 302%Z).
Proof.
  split; [apply main_returns|].
  intros output Hperm%main_expected v u. rewrite Hperm.
  unfold expected_output. rewrite list_elem_of_bind. split.
  - intros (u' & Hv & Hu').
    apply list_elem_of_fmap in Hv as (v' & [= <- <-] & Hv).
    apply elem_of_filterManifestURLs in Hu' as (Hin & Hne & Hacc).
    apply list_elem_of_fmap in Hin as (raw & -> & Hraw).
    split; [by exists raw|]. split; [done|]. split; [done|].
    apply elem_of_expected_vulns in Hv as (deps & ? & ? & ? & Ha).
    apply registry_answer_true in Ha. by exists deps.
  - intros ((raw & Hraw & ->) & Hne & Hacc & deps & Hget & ? & ? & Ha).
    exists (strings.TrimSpace raw). split.
    + apply list_elem_of_fmap. exists v. split; [done|].
      apply elem_of_expected_vulns. exists deps.
      by rewrite registry_answer_true.
    + apply elem_of_filterManifestURLs. split; [|done].
      apply list_elem_of_fmap. by exists raw.
Qed.

End Output.

(** X18.  Lines 275-277, 393-398.  [main] runs its pools with between 1 and
    100 goroutines, also when the flag is out of range, and the clamp
    of [runWorkers] never changes the number [main] passes. *)
Theorem main_pool_size (threads : Z) :
  (1 ≤ clamp_threads threads ≤ 100)%Z
  ∧ Pool.clamp (clamp_threads threads) = Z.to_nat (clamp_threads threads)
  ∧ (1 <= Pool.clamp (clamp_threads threads) <= 100)
  ∧ ((1 ≤ threads ≤ 100)%Z → clamp_threads threads = threads)
  ∧ clamp_threads (clamp_threads threads) = clamp_threads threads.
Proof.
  unfold Pool.clamp, clamp_threads.
  destruct (Z.ltb_spec threads 1);
    repeat match goal with
           | |- context [(?a <? ?b)%Z] => destruct (Z.ltb_spec a b)
           end; lia.
Qed.

(** ** Worked examples of the further properties *)

Lemma package_json_names_witness :
  let pj := PackageJSON {[ "left-pad" := "^1.0.0" ]} {[ "mocha" := "^9" ]} in
  ∃ deps, getDependencies (W := example_world)
            "https://example.com/app/package.json" = inr (deps, langJS)
          ∧ (∀ k, k ∈ deps ↔ is_Some (Dependencies pj !! k)
                              ∨ is_Some (DevDependencies pj !! k))
          ∧ length deps = size (Dependencies pj) + size (DevDependencies pj)
          ∧ (NoDup deps ↔ dom (Dependencies pj) ## dom (DevDependencies pj)).
Proof.
  apply (package_json_names (W := example_world)
           "https://example.com/app/package.json" example_manifest 200).
  - vm_compute. reflexivity.
  - vm_compute. reflexivity.
  - vm_compute. reflexivity.
Defined.

Lemma requirement_names_clean_witness :
  "requests" ≠ ""
  ∧ strings.TrimSpace "requests" = "requests"
  ∧ Forall (λ c, req_delim c = false) (bytes "requests").
Proof.
  apply (requirement_names_clean example_requirements "requests").
  vm_compute. apply list_elem_of_here.
Defined.

Lemma checkURLDependencies_findings_witness :
  let u := "https://example.com/app/package.json" in
  (∃ vv e cache', checkURLDependencies (W := example_world) u 4 ∅ vv e cache')
  ∧ (∀ vv e cache',
       checkURLDependencies (W := example_world) u 4 ∅ vv e cache' →
       vv ≡ₚ expected_vulns (W := example_world) u
       ∧ NoDup vv
       ∧ (∀ v, v ∈ vv
               ↔ ∃ deps, getDependencies (W := example_world) u
                           = inr (deps, Language v)
                         ∧ Package v ≠ ""
                         ∧ Package v ∈ (strings.TrimSpace <$> deps)
                         ∧ http_NewRequest (World := example_world)
                             (checkURL (Package v) (Language v)) = None
                         ∧ Do_HEAD (World := example_world)
                             (checkURL (Package v) (Language v))
                           = inr (Status v)
                         ∧ Status v ≠ 200%Z ∧ Status v ≠ 302%Z)
       ∧ e = match getDependencies (W := example_world) u with
             | inl err => Some err
             | inr _ => None
             end
       ∧ cache_consistent (W := example_world) cache'
       ∧ ∅ ⊆ cache').
Proof.
  apply (checkURLDependencies_findings (W := example_world)
           "https://example.com/app/package.json" 4 ∅).
  intros u st Hu. rewrite lookup_empty in Hu. discriminate Hu.
Defined.

Example expected_output_example :
  expected_output (W := example_world)
    [ "  https://example.com/app/package.json";
      "https://example.com/index.html";
      "";
      "https://down.example.com/setup.py";
      "https://example.com/app/package.json" ]
  = [ (Vuln "left-pad" 404 langJS, "https://example.com/app/package.json") ].
Proof. vm_compute. reflexivity. Qed.
